(** * Live chord detector: the detection pipeline of [www/app.js]

    A shallow embedding of the pure helpers ([shiftHPCP],
    [generateChordTemplate], [generateChordTemplates], [cosineSimilarity],
    [detectChord], [detectNotes]) and of the message handler installed on
    the audio worklet port, followed by the properties checked against the
    written specification.

    JavaScript numbers are IEEE 754 binary64 values; they are embedded as
    Rocq's primitive [float], whose operations are the same correctly
    rounded binary64 operations.  Loop counters, array lengths and the
    semitone shift are integers far below 2^53, where the binary64
    operations [+] and [%] are exact; they are embedded as [nat] and [Z],
    with [%] as the truncating remainder [Z.rem]. *)

From Stdlib Require Import ZArith Floats Lia Ascii.
From stdpp Require Import base option list sorting strings.

Set Default Proof Using "Type".
Set Warnings "-inexact-float".
Local Open Scope Z_scope.

(** ** The JavaScript run-time values the program uses *)

Module JS.

(** [undefined] is [None]; a hole of an array reads as [undefined]. *)
Abbreviation value A := (option A).

(** An [Array]: its elements at the indices [0 .. length-1]. *)
Abbreviation array A := (list (option A)).

(** [new Array(len)]: [len] holes. *)
Definition new_Array {A} (len : nat) : array A := replicate len None.

(** [a[i]] for a loop counter [i]: [undefined] outside the array. *)
Definition get {A} (a : array A) (i : nat) : value A := mjoin (a !! i).

(** [a[k] = x] for an integer-valued key [k].  A negative key is not an
    array index: the assignment creates a property named ["-1"], ["-2"],
    ... on the object, which no indexed read and no [length] ever sees,
    so the elements are unchanged.  A key at or past the end extends the
    array with holes. *)
Definition set {A} (a : array A) (k : Z) (x : value A) : array A :=
  if bool_decide (k < 0) then a
  else if bool_decide (k < Z.of_nat (length a)) then <[Z.to_nat k := x]> a
  else a ++ replicate (Z.to_nat k - length a) None ++ [x].

(** A dense array of defined values. *)
Definition dense {A} (l : list A) : array A := Some <$> l.

(** [ToNumber]: [undefined] converts to [NaN]. *)
Definition ToNumber (v : value float) : float := default nan v.

(** An integer below 2^53 as a number. *)
Definition of_nat (n : nat) : float :=
  PrimFloat.of_uint63 (Uint63.of_Z (Z.of_nat n)).

(** [null], where a variable holds a string or [null]. *)
Definition null {A} : option A := None.

(** String conversion inside a template literal or a [+] with a string. *)
Definition string_of_undef (v : value string) : string := default "undefined" v.
Definition string_of_null (v : option string) : string := default "null" v.

(** An ordinary object used as a map from property names to values: the
    string-named own properties in creation order. *)
Abbreviation object V := (list (string * V)).

(** [o[k] = v]: an existing property keeps its place. *)
Fixpoint put {V} (o : object V) (k : string) (v : V) : object V :=
  match o with
  | [] => [(k, v)]
  | (k', v') :: o' => if decide (k' = k) then (k, v) :: o' else (k', v') :: put o' k v
  end.

(** [o[k]] for a property name [k]. *)
Definition lookup {V} (o : object V) (k : string) : option V :=
  (λ found, found.2.2) <$> list_find (λ kv, kv.1 = k) o.

(** Property enumeration ([for ... in], [Object.entries]) visits the
    properties whose name is an array index (a canonical decimal numeral
    below 2^32 - 1) first, in ascending numeric order, and then the other
    string-named properties in creation order. *)
Definition digit (c : ascii) : option N :=
  let n := N_of_ascii c in
  if ((48 <=? n) && (n <=? 57))%N then Some (n - 48)%N else None.

Fixpoint digits (acc : N) (s : string) : option N :=
  match s with
  | String.EmptyString => Some acc
  | String.String c s' => d ← digit c; digits (10 * acc + d)%N s'
  end.

Definition array_index (s : string) : option N :=
  match s with
  | String.EmptyString => None
  | String.String c s' =>
      if decide (s = "0") then Some 0%N
      else if decide (c = "0"%char) then None
      else n ← digits 0 s; if (n <=? 4294967294)%N then Some n else None
  end.

Fixpoint insert_index {V} (n : N) (kv : string * V) (l : list (N * (string * V)))
  : list (N * (string * V)) :=
  match l with
  | [] => [(n, kv)]
  | (m, kv') :: l' =>
      if (n <? m)%N then (n, kv) :: l else (m, kv') :: insert_index n kv l'
  end.

Definition index_entries {V} (o : object V) : list (N * (string * V)) :=
  foldl (λ acc kv, match array_index kv.1 with
                   | Some n => insert_index n kv acc
                   | None => acc
                   end) [] o.

Definition entries {V} (o : object V) : list (string * V) :=
  (snd <$> index_entries o)
    ++ filter (λ kv, array_index kv.1 = None) o.

(** [Array.prototype.sort(comparefn)].  The sort is stable, and a [NaN]
    answer of [comparefn] counts as [+0].  For a consistent [comparefn]
    the result is the one ordering that is sorted and stable, computed
    here by insertion from the right; for an inconsistent one the order
    is left to the engine and this function is one admissible choice. *)
Fixpoint sort_insert {A} (comparefn : A → A → float) (x : A) (l : list A) : list A :=
  match l with
  | [] => [x]
  | y :: l' =>
      if (0 <? comparefn x y)%float then y :: sort_insert comparefn x l'
      else x :: l
  end.

Definition sort {A} (comparefn : A → A → float) (l : list A) : list A :=
  foldr (sort_insert comparefn) [] l.

(** [Array.prototype.join(sep)] on strings. *)
Fixpoint join (sep : string) (l : list string) : string :=
  match l with
  | [] => ""
  | [x] => x
  | x :: l' => x +:+ sep +:+ join sep l'
  end.

End JS.

(** ** [shiftHPCP] *)

(** The index written by iteration [i]: [(i + shift + len) % len]. *)
Definition shift_index (len : nat) (shift : Z) (i : nat) : Z :=
  Z.rem (Z.of_nat i + shift + Z.of_nat len) (Z.of_nat len).

(** One iteration of the loop: [shifted[(i + shift + len) % len] = hpcp[i]]. *)
Definition shift_step {A} (hpcp : JS.array A) (shift : Z)
    (shifted : JS.array A) (i : nat) : JS.array A :=
  JS.set shifted (shift_index (length hpcp) shift i) (JS.get hpcp i).

(** The array [shifted] after the first [n] iterations of the loop. *)
Definition shift_loop {A} (hpcp : JS.array A) (shift : Z) (n : nat) : JS.array A :=
  foldl (shift_step hpcp shift) (JS.new_Array (length hpcp)) (seq 0 n).

Definition shiftHPCP {A} (hpcp : JS.array A) (shift : Z) : JS.array A :=
  shift_loop hpcp shift (length hpcp).

(** The input index whose value a rotation by [s >= -len] stores at the
    output index [k]. *)
Definition source_index {A} (hpcp : JS.array A) (s : Z) (k : nat) : nat :=
  Z.to_nat ((Z.of_nat k - s) `mod` Z.of_nat (length hpcp)).

(** ** Chord templates *)

Definition generateChordTemplate (rootIndex : Z) (intervals : list Z) : JS.array float :=
  foldl (λ template interval, JS.set template (Z.rem (rootIndex + interval) 12) (Some 1%float))
        (JS.dense (replicate 12 0%float)) intervals.

Definition noteNames : list string :=
  ["C"; "C#"; "D"; "D#"; "E"; "F"; "F#"; "G"; "G#"; "A"; "A#"; "B"].

(** The object literal, properties in the order written. *)
Definition chordTypes : JS.object (list Z) :=
  [("maj", [0; 4; 7]); ("min", [0; 3; 7]); ("dim", [0; 3; 6]);
   ("aug", [0; 4; 8]); ("7", [0; 4; 7; 10])].

Definition chord_label (i : nat) (type : string) : string :=
  JS.string_of_undef (noteNames !! i) +:+ ":" +:+ type.

Definition generateChordTemplates : JS.object (JS.array float) :=
  foldl (λ templates i,
           foldl (λ templates '(type, intervals),
                    JS.put templates (chord_label i type)
                           (generateChordTemplate (Z.of_nat i) intervals))
                 templates (JS.entries chordTypes))
        [] (seq 0 12).

(** ** Similarity and detection *)

(** One iteration of the loop of [cosineSimilarity], on the triple of the
    running sums. *)
Definition cosine_step (a b : JS.array float)
    (sums : float * float * float) (i : nat) : float * float * float :=
  let '(dot, normA, normB) := sums in
  let ai := JS.ToNumber (JS.get a i) in
  let bi := JS.ToNumber (JS.get b i) in
  (dot + ai * bi, normA + ai * ai, normB + bi * bi)%float.

(** [Math.sqrt] is the correctly rounded binary64 square root. *)
Definition cosineSimilarity (a b : JS.array float) : float :=
  let '(dot, normA, normB) :=
    foldl (cosine_step a b) (0, 0, 0)%float (seq 0 (length a)) in
  (dot / (sqrt normA * sqrt normB))%float.

(** One iteration of the loop of [detectChord]. *)
Definition detect_step (hpcpVector : JS.array float)
    (best : option string * float) (entry : string * JS.array float)
  : option string * float :=
  let score := cosineSimilarity hpcpVector entry.2 in
  if (best.2 <? score)%float then (Some entry.1, score) else best.

Definition detectChord (hpcpVector : JS.array float)
    (chordTemplates : JS.object (JS.array float)) : option string :=
  (foldl (detect_step hpcpVector) (JS.null, neg_infinity) (JS.entries chordTemplates)).1.

Record note_strength := { note : JS.value string; value : JS.value float }.

(** The object pushed by iteration [i] of the loop of [detectNotes]. *)
Definition note_at (hpcpVector : JS.array float) (i : nat) : note_strength :=
  {| note := noteNames !! i; value := JS.get hpcpVector i |}.

Definition detectNotes (hpcpVector : JS.array float) (threshold : float)
  : list note_strength :=
  let notes := note_at hpcpVector <$> seq 0 (length hpcpVector) in
  JS.sort (λ a b, JS.ToNumber (value b) - JS.ToNumber (value a))%float
          (filter (λ n, (threshold <=? JS.ToNumber (value n))%float = true) notes).

(** ** The pipeline state and the message handler *)

Definition BUFFER_SIZE : nat := Z.to_nat 8192.
Global Arguments BUFFER_SIZE : simpl never.
Definition HOP_SIZE : nat := 512.
Definition SMOOTHING_INTERVAL : float := 250%float.
Definition chordTemplates : JS.object (JS.array float) := generateChordTemplates.

(** The module-level variables the handler and [stopAudioWorkletStream]
    read and write, and the [innerHTML] of the element [chord-display].
    [essentiaExtractor] records whether the variable holds the extractor
    object ([true]) or [null]; the handles [audioCtx], [gumStream],
    [audioWorkletNode] and [gainNode] carry no data of the pipeline. *)
Record state := {
  essentiaExtractor : bool;
  isRecording : bool;
  hpcpAccumulation : list (JS.array float);
  lastSmoothingTime : float;
  lastChordResult : option string;
  lastNotesResult : string;
  sampleAccumulator : list (list float);
  chord_display : string
}.

Definition set_sampleAccumulator (acc : list (list float)) (st : state) : state :=
  {| essentiaExtractor := essentiaExtractor st; isRecording := isRecording st;
     hpcpAccumulation := hpcpAccumulation st;
     lastSmoothingTime := lastSmoothingTime st;
     lastChordResult := lastChordResult st; lastNotesResult := lastNotesResult st;
     sampleAccumulator := acc; chord_display := chord_display st |}.

Definition set_hpcpAccumulation (acc : list (JS.array float)) (st : state) : state :=
  {| essentiaExtractor := essentiaExtractor st; isRecording := isRecording st;
     hpcpAccumulation := acc;
     lastSmoothingTime := lastSmoothingTime st;
     lastChordResult := lastChordResult st; lastNotesResult := lastNotesResult st;
     sampleAccumulator := sampleAccumulator st; chord_display := chord_display st |}.

(** The state when the script has been loaded at time [t0]; the script has
    not yet written the displayed text. *)
Definition initial_state (t0 : float) : state :=
  {| essentiaExtractor := false; isRecording := false;
     hpcpAccumulation := []; lastSmoothingTime := t0;
     lastChordResult := Some "None"; lastNotesResult := "None";
     sampleAccumulator := []; chord_display := "" |}.

(** How a run of the handler ends: it returns, or the call of a method of
    the [null] extractor throws a [TypeError]. *)
Inductive completion := Returned | Thrown.

(** Lines 163-175: push the chunk; when the buffered chunks hold at least
    [BUFFER_SIZE] samples, copy them in arrival order into one buffer, keep
    its first [BUFFER_SIZE] samples and empty the accumulator. *)
Definition totalSamples (acc : list (list float)) : nat :=
  foldl (λ sum arr, sum + length arr)%nat 0%nat acc.

Definition accumulate (acc : list (list float)) (data : list float)
  : list (list float) * option (list float) :=
  let acc := acc ++ [data] in
  if bool_decide (BUFFER_SIZE ≤ totalSamples acc)%nat then
    let buffer := foldl (λ buffer arr, buffer ++ arr) [] acc in
    let buffer :=
      if bool_decide (BUFFER_SIZE < length buffer)%nat then take BUFFER_SIZE buffer
      else buffer in
    ([], Some buffer)
  else (acc, None).

(** Line 178, negated: the frame goes on when [rms < 0.05] is false. *)
Definition loud_enough (rms : float) : bool := negb (rms <? 0.05)%float.

(** Lines 189-191. *)
Definition averageHPCP (acc : list (JS.array float)) : JS.array float :=
  let sums :=
    foldl (λ acc curr, imap (λ i val, val + JS.ToNumber (JS.get curr i))%float acc)
          (replicate 12 0%float) acc in
  JS.dense ((λ val, val / JS.of_nat (length acc))%float <$> sums).

Section Pipeline.

(** The collaborators outside the repository: the Essentia extractor
    ([RMS(arrayToVector(buffer)).rms] and [hpcpExtractor(buffer)]) and
    [Number.prototype.toFixed(2)]. *)
Variable RMS : list float → float.
Variable hpcpExtractor : list float → JS.array float.
Variable toFixed2 : float → string.

Definition topNotes (detectedNotes : list note_strength) : string :=
  JS.join ", "
    ((λ n, JS.string_of_undef (note n) +:+ " ("
             +:+ toFixed2 (JS.ToNumber (value n)) +:+ ")") <$> detectedNotes).

(** Lines 187-204, after the new vector has been pushed. *)
Definition smooth (st : state) (now : float) : state :=
  if (SMOOTHING_INTERVAL <=? now - lastSmoothingTime st)%float then
    let avgHPCP := averageHPCP (hpcpAccumulation st) in
    let detectedChord := detectChord avgHPCP chordTemplates in
    let detectedNotes := detectNotes avgHPCP 0.1%float in
    let topNotes := topNotes detectedNotes in
    {| essentiaExtractor := essentiaExtractor st; isRecording := isRecording st;
       hpcpAccumulation := [];
       lastSmoothingTime := now;
       lastChordResult := detectedChord;
       lastNotesResult := topNotes;
       sampleAccumulator := sampleAccumulator st;
       chord_display := "Detected Chord: " +:+ JS.string_of_null detectedChord
                          +:+ "<br>Notes: " +:+ topNotes |}
  else st.

(** Lines 177-204: what happens to an emitted frame.  [now] is the value
    [performance.now()] returns if this run reads the clock. *)
Definition process (st : state) (buffer : list float) (now : float)
  : state * completion :=
  if essentiaExtractor st then
    if loud_enough (RMS buffer) then
      let hpcp := shiftHPCP (hpcpExtractor buffer) (-3) in
      let st := set_hpcpAccumulation (hpcpAccumulation st ++ [hpcp]) st in
      (smooth st now, Returned)
    else (st, Returned)
  else (st, Thrown).

(** The handler [audioWorkletNode.port.onmessage]. *)
Definition onmessage (st : state) (data : list float) (now : float)
  : state * completion :=
  let '(acc, frame) := accumulate (sampleAccumulator st) data in
  let st := set_sampleAccumulator acc st in
  match frame with
  | Some buffer => process st buffer now
  | None => (st, Returned)
  end.

(** A run of the handler on a sequence of messages, each with the clock
    value of its run; a thrown [TypeError] ends one run, not the session. *)
Definition run (st : state) (msgs : list (list float * float)) : state :=
  foldl (λ st '(data, now), (onmessage st data now).1) st msgs.

End Pipeline.

(** The callback of [EssentiaWASM().then]: the extractor becomes available. *)
Definition extractor_loaded (st : state) : state :=
  {| essentiaExtractor := true; isRecording := isRecording st;
     hpcpAccumulation := hpcpAccumulation st;
     lastSmoothingTime := lastSmoothingTime st;
     lastChordResult := lastChordResult st; lastNotesResult := lastNotesResult st;
     sampleAccumulator := sampleAccumulator st; chord_display := chord_display st |}.

Definition stopAudioWorkletStream (st : state) : state :=
  {| essentiaExtractor := false; isRecording := false;
     hpcpAccumulation := [];
     lastSmoothingTime := lastSmoothingTime st;
     lastChordResult := lastChordResult st; lastNotesResult := lastNotesResult st;
     sampleAccumulator := [];
     chord_display := "Last Detected Chord: " +:+ JS.string_of_null (lastChordResult st)
                        +:+ "<br>Notes: " +:+ lastNotesResult st |}.

(** The frames a sequence of pushes emits, push by push, and the
    accumulator it leaves. *)
Definition push_all (acc : list (list float)) (chunks : list (list float))
  : list (list float) * list (option (list float)) :=
  foldl (λ '(acc, emitted) data,
           let '(acc', frame) := accumulate acc data in (acc', emitted ++ [frame]))
        (acc, []) chunks.

(** ** Notions on binary64 numbers *)

(** Leibniz equality of binary64 values is decidable. *)
#[global] Instance float_eq_dec : EqDecision float.
Proof.
  intros x y. destruct (PrimFloat.Leibniz.eqb x y) eqn:E.
  - left. by apply FloatAxioms.Leibniz.eqb_spec.
  - right. intros H. apply FloatAxioms.Leibniz.eqb_spec in H. congruence.
Defined.

(** Zero of either sign, or [NaN]: the values an all-zero vector
    produces. *)
Definition SF_zero_or_nan (x : spec_float) : bool :=
  match x with S754_zero _ | S754_nan => true | _ => false end.

Definition float_zero_or_nan (x : float) : bool := SF_zero_or_nan (Prim2SF x).


(** The least exponent and the exponent function of binary64. *)
Abbreviation emin64 := (SpecFloat.emin prec emax).
Abbreviation fexp64 := (SpecFloat.fexp prec emax).

(** A rounded non-zero quantity of sign [s]: finite or infinite, never a
    zero and never [NaN]. *)
Definition signed_nonzero (s : bool) (x : spec_float) : Prop :=
  match x with
  | S754_finite s' _ _ | S754_infinity s' => s' = s
  | _ => False
  end.

(** ** Specification-side notions *)

(** A score the program can compare and recognise: a number rather than
    [NaN], the one value that is not even equal to itself. *)
Definition defined_score (x : float) : bool := (x =? x)%float.

(** [best] is the first maximum of the similarities to [v] over the
    entries [es]: no entry scores higher, and no earlier entry scores the
    same; a missing label means that no entry scores above [-Infinity]. *)
Definition first_maximum (v : JS.array float) (es : list (string * JS.array float))
    (best : option string * float) : Prop :=
  match best.1 with
  | None =>
      best.2 = neg_infinity
      ∧ ∀ e, e ∈ es → (neg_infinity <? cosineSimilarity v e.2)%float = false
  | Some chord =>
      ∃ k t, es !! k = Some (chord, t)
        ∧ best.2 = cosineSimilarity v t
        ∧ (neg_infinity <? best.2)%float = true
        ∧ (∀ j e, es !! j = Some e → (best.2 <? cosineSimilarity v e.2)%float = false)
        ∧ (∀ j e, es !! j = Some e → (j < k)%nat →
             (cosineSimilarity v e.2 =? best.2)%float = false)
  end.

(** The chroma value of pitch class [i] as a number. *)
Definition strength (v : JS.array float) (i : nat) : float :=
  JS.ToNumber (JS.get v i).

(** Pitch class [i] is ranked before pitch class [j]: its value is not
    smaller, and if the values are equal its index is. *)
Definition ranked_before (v : JS.array float) (i j : nat) : Prop :=
  (strength v i <? strength v j)%float = false
  ∧ ((strength v i =? strength v j)%float = true → (i < j)%nat).

(** The pitch classes [detectNotes] returns, in its order. *)
Definition dominant_indices (v : JS.array float) (threshold : float) : list nat :=
  JS.sort (λ i j, strength v j - strength v i)%float
          (filter (λ i, (threshold <=? strength v i)%float = true) (seq 0 (length v))).

(** The stored detection result: the last chord label and the last
    ranked notes. *)
Definition result (st : state) : option string * string :=
  (lastChordResult st, lastNotesResult st).

(** A run of the handler flushes the smoothing window when it emits a
    frame, the extractor is there, the frame passes the loudness gate and
    the window has elapsed. *)
Definition flushes (RMS : list float → float) (st : state) (data : list float)
    (now : float) : bool :=
  match (accumulate (sampleAccumulator st) data).2 with
  | Some buffer =>
      essentiaExtractor st && loud_enough (RMS buffer)
        && (SMOOTHING_INTERVAL <=? now - lastSmoothingTime st)%float
  | None => false
  end.

(** The arithmetic mean of the values at index [i] of the vectors [vs], in
    the arithmetic of the program: the sum from 0 in arrival order,
    divided by the number of vectors. *)
Definition mean_at (vs : list (JS.array float)) (i : nat) : float :=
  (foldl (λ sum v, sum + JS.ToNumber (JS.get v i)) 0 vs / JS.of_nat (length vs))%float.

Definition mean_vector (vs : list (JS.array float)) : list float :=
  mean_at vs <$> seq 0 12.

(** ** Concrete data used in the examples *)

(** Stand-ins for the collaborators in the examples: an extractor that
    reports a fixed loudness and a fixed chroma vector, and a formatter. *)
Definition constant_RMS (rms : float) : list float → float := λ _, rms.
Definition constant_hpcp (hpcp : JS.array float) : list float → JS.array float :=
  λ _, hpcp.
Definition plain_toFixed2 : float → string := λ _, "0.00".

Definition chunks_82 : list (list float) := replicate 82 (replicate 100 0.25%float).

Definition unit_vector (k : nat) : JS.array float :=
  JS.dense (<[k := 1%float]> (replicate 12 0%float)).


Definition zeros (n : nat) : JS.array float := JS.dense (replicate n 0%float).
Definition template_C_maj : JS.array float := generateChordTemplate 0 [0; 4; 7].

(** The pitch classes of the chord on root [i] with the given intervals. *)
Definition chord_positions (i : nat) (intervals : list Z) : list Z :=
  (λ interval, (Z.of_nat i + interval) `mod` 12) <$> intervals.

Definition template_of (i : nat) (q : string * list Z) : JS.array float :=
  generateChordTemplate (Z.of_nat i) q.2.

Definition is_one (x : JS.value float) : bool :=
  match x with Some f => (f =? 1)%float | None => false end.


Definition ramp : list float := [0; 1; 2; 3; 4; 5; 6; 7; 8; 9; 10; 11]%float.

(** ** The earlier version of the script (major chords only)

    The functions in which the unnamed earlier source differs from
    [www/app.js]. *)

Module Earlier.

Definition generateMajorTemplate (rootIndex : Z) : JS.array float :=
  let template := JS.dense (replicate 12 0%float) in
  let template := JS.set template (Z.rem rootIndex 12) (Some 1%float) in
  let template := JS.set template (Z.rem (rootIndex + 4) 12) (Some 1%float) in
  JS.set template (Z.rem (rootIndex + 7) 12) (Some 1%float).

Definition generateChordTemplates : JS.object (JS.array float) :=
  foldl (λ templates i,
           JS.put templates (JS.string_of_undef (noteNames !! i) +:+ ":maj")
                  (generateMajorTemplate (Z.of_nat i)))
        [] (seq 0 12).

End Earlier.

(** ** Further notions *)

(** The pitch classes of the chord on an integer root. *)
Definition template_positions (rootIndex : Z) (intervals : list Z) : list Z :=
  (λ interval, (rootIndex + interval) `mod` 12) <$> intervals.

(** The 12-vector with [1.0] at the given pitch classes and [0.0]
    elsewhere. *)
Definition indicator (positions : list Z) : JS.array float :=
  JS.dense ((λ j : nat, if bool_decide (Z.of_nat j ∈ positions) then 1%float else 0%float)
              <$> seq 0 12).

(** [Number.isSafeInteger]: an integer of magnitude below 2^53.  Such an
    integer is a binary64 number, and the binary64 sum of two of them is
    their exact sum whenever that sum is again one of them. *)
Definition safe_integer (z : Z) : Prop := - 2 ^ 53 < z < 2 ^ 53.

(** An entry of a template: [0.0] or [1.0]. *)
Definition binary_entry (x : JS.value float) : Prop := x = Some 0%float ∨ x = Some 1%float.

(** The labels of the augmented chords whose template repeats the
    template of an earlier entry of the library. *)
Definition shadowed_labels : list string :=
  ["E:aug"; "F:aug"; "F#:aug"; "G:aug"; "G#:aug"; "A:aug"; "A#:aug"; "B:aug"].

(** A vector whose only non-zero entry, at C#, is so small that its
    square underflows to zero. *)
Definition faint_C_sharp : JS.array float :=
  JS.dense (<[1%nat := 0x1p-700%float]> (replicate 12 0%float)).

(** Sixty-four chunks of 128 samples, the size of a render quantum. *)
Definition chunks_64 : list (list float) := replicate 64 (replicate 128 0.25%float).

(** A state in which the smoothing accumulation holds one vector without
    entries. *)
Definition state_with_empty_vector : state :=
  set_hpcpAccumulation [[]] (extractor_loaded (initial_state 0)).

(** * Properties *)

(** ** Rotation *)

Section ShiftHPCP.
Context {A : Type}.
Implicit Types (hpcp : JS.array A) (s : Z) (i k n : nat).

Lemma set_in_range (a : JS.array A) (z : Z) x :
  0 ≤ z < Z.of_nat (length a) → JS.set a z x = <[Z.to_nat z := x]> a.
Proof.
  intros [Hlo Hhi]. unfold JS.set.
  rewrite bool_decide_eq_false_2 by lia.
  by rewrite bool_decide_eq_true_2 by lia.
Qed.

Lemma set_negative (a : JS.array A) (z : Z) x : z < 0 → JS.set a z x = a.
Proof. intros Hz. unfold JS.set. by rewrite bool_decide_eq_true_2. Qed.

(** From [shift >= -len] on, the truncating [%] is the mathematical
    residue. *)
Lemma shift_index_mod len s i :
  (0 < len)%nat → - Z.of_nat len ≤ s →
  shift_index len s i = (Z.of_nat i + s) `mod` Z.of_nat len.
Proof.
  intros Hlen Hs. unfold shift_index.
  rewrite Z.rem_mod_nonneg by lia.
  rewrite <- (Z.mod_add (Z.of_nat i + s) 1 (Z.of_nat len)) by lia.
  f_equal. lia.
Qed.

Lemma source_index_written hpcp s n :
  (n < length hpcp)%nat →
  source_index hpcp s (Z.to_nat ((Z.of_nat n + s) `mod` Z.of_nat (length hpcp))) = n.
Proof.
  intros Hn. unfold source_index.
  set (L := Z.of_nat (length hpcp)).
  assert (0 < L) by lia.
  rewrite Z2Nat.id by (apply Z.mod_pos_bound; lia).
  rewrite Zminus_mod_idemp_l.
  replace (Z.of_nat n + s - s) with (Z.of_nat n) by lia.
  rewrite Z.mod_small by lia. lia.
Qed.

Lemma source_index_inv hpcp s n k :
  (k < length hpcp)%nat → source_index hpcp s k = n →
  Z.to_nat ((Z.of_nat n + s) `mod` Z.of_nat (length hpcp)) = k.
Proof.
  intros Hk <-. unfold source_index.
  set (L := Z.of_nat (length hpcp)).
  assert (0 < L) by lia.
  rewrite Z2Nat.id by (apply Z.mod_pos_bound; lia).
  rewrite Zplus_mod_idemp_l.
  replace (Z.of_nat k - s + s) with (Z.of_nat k) by lia.
  rewrite Z.mod_small by lia. lia.
Qed.

Lemma source_index_lt hpcp s k :
  (0 < length hpcp)%nat → (source_index hpcp s k < length hpcp)%nat.
Proof.
  intros Hlen. unfold source_index.
  pose proof (Z.mod_pos_bound (Z.of_nat k - s) (Z.of_nat (length hpcp))). lia.
Qed.

Lemma shift_loop_S hpcp s n :
  shift_loop hpcp s (S n) = shift_step hpcp s (shift_loop hpcp s n) n.
Proof. unfold shift_loop. by rewrite seq_S, foldl_app. Qed.

(** The loop invariant: after [n] iterations exactly the images of the
    first [n] indices have been written. *)
Lemma shift_loop_spec hpcp s n :
  - Z.of_nat (length hpcp) ≤ s → (n ≤ length hpcp)%nat →
  length (shift_loop hpcp s n) = length hpcp ∧
  ∀ k, (k < length hpcp)%nat →
    shift_loop hpcp s n !! k =
      Some (if decide (source_index hpcp s k < n)%nat
            then JS.get hpcp (source_index hpcp s k) else None).
Proof.
  intros Hs. induction n as [|n IH]; intros Hn.
  - split; [apply length_replicate|].
    intros k Hk. cbn. unfold JS.new_Array. rewrite lookup_replicate_2 by done.
    by rewrite decide_False by lia.
  - destruct IH as [IHlen IHget]; [lia|].
    rewrite shift_loop_S. unfold shift_step.
    rewrite shift_index_mod by lia.
    pose proof (Z.mod_pos_bound (Z.of_nat n + s) (Z.of_nat (length hpcp))) as Hb.
    rewrite set_in_range by lia.
    split; [by rewrite length_insert|].
    intros k Hk.
    destruct (decide (Z.to_nat ((Z.of_nat n + s) `mod` Z.of_nat (length hpcp)) = k))
      as [<-|Hne].
    + rewrite list_lookup_insert_eq by lia.
      rewrite source_index_written by lia.
      by rewrite decide_True by lia.
    + rewrite list_lookup_insert_ne by done.
      rewrite IHget by done.
      assert (source_index hpcp s k ≠ n)
        by (intros Hk'; by apply Hne, source_index_inv).
      destruct (decide (source_index hpcp s k < n)%nat);
        [by rewrite decide_True by lia | by rewrite decide_False by lia].
Qed.

Lemma shiftHPCP_length hpcp s :
  - Z.of_nat (length hpcp) ≤ s → length (shiftHPCP hpcp s) = length hpcp.
Proof. intros Hs. by apply (shift_loop_spec hpcp s (length hpcp)). Qed.

Lemma shiftHPCP_lookup hpcp s k :
  - Z.of_nat (length hpcp) ≤ s → (k < length hpcp)%nat →
  shiftHPCP hpcp s !! k = Some (JS.get hpcp (source_index hpcp s k)).
Proof.
  intros Hs Hk.
  destruct (shift_loop_spec hpcp s (length hpcp) Hs (Nat.le_refl _)) as [_ ->]; [|done].
  by rewrite decide_True by (apply source_index_lt; lia).
Qed.

(** Where an input element lands. *)
Lemma shiftHPCP_places hpcp s i :
  - Z.of_nat (length hpcp) ≤ s → (i < length hpcp)%nat →
  shiftHPCP hpcp s !! Z.to_nat ((Z.of_nat i + s + Z.of_nat (length hpcp))
                                  `mod` Z.of_nat (length hpcp))
    = Some (JS.get hpcp i).
Proof.
  intros Hs Hi.
  replace (Z.of_nat i + s + Z.of_nat (length hpcp))
    with (Z.of_nat i + s + 1 * Z.of_nat (length hpcp)) by lia.
  rewrite Z.mod_add by lia.
  pose proof (Z.mod_pos_bound (Z.of_nat i + s) (Z.of_nat (length hpcp))).
  rewrite shiftHPCP_lookup by lia.
  by rewrite source_index_written.
Qed.

Lemma shiftHPCP_inverse hpcp s :
  - Z.of_nat (length hpcp) ≤ s ≤ Z.of_nat (length hpcp) →
  shiftHPCP (shiftHPCP hpcp s) (- s) = hpcp.
Proof.
  intros [Hlo Hhi].
  pose proof (shiftHPCP_length hpcp s Hlo) as Hlen.
  apply list_eq_same_length with (length hpcp);
    [done | rewrite shiftHPCP_length; lia |].
  intros k x y Hk Hx Hy.
  rewrite shiftHPCP_lookup in Hx by lia.
  unfold JS.get in Hx.
  pose proof (source_index_lt (shiftHPCP hpcp s) (- s) k) as Hsrc.
  rewrite shiftHPCP_lookup in Hx by lia.
  cbn in Hx.
  replace (source_index hpcp s (source_index (shiftHPCP hpcp s) (- s) k))
    with k in Hx.
  - unfold JS.get in Hx. rewrite Hy in Hx. cbn in Hx. congruence.
  - symmetry. unfold source_index at 2. rewrite Hlen.
    replace (Z.of_nat k - - s) with (Z.of_nat k + s) by lia.
    by apply source_index_written.
Qed.

End ShiftHPCP.

Lemma get_dense {A} (l : list A) i : JS.get (JS.dense l) i = l !! i.
Proof.
  unfold JS.get, JS.dense. rewrite list_lookup_fmap. by destruct (l !! i).
Qed.

(** C2, as amended: for a 12-vector [v] and an integer shift [s] with
    [-12 <= s <= 12], rotating by [s] and then by [-s] gives [v] back, in
    either order, and the rotation by [s] stores the input value of index
    [i] at the output index [(i + s + 12) mod 12]. *)
Theorem shiftHPCP_roundtrip_12 {A} (v : list A) (s : Z) :
  length v = 12%nat → -12 ≤ s ≤ 12 →
  shiftHPCP (shiftHPCP (JS.dense v) s) (- s) = JS.dense v
  ∧ shiftHPCP (shiftHPCP (JS.dense v) (- s)) s = JS.dense v
  ∧ ∀ i, (i < 12)%nat →
      shiftHPCP (JS.dense v) s !! Z.to_nat ((Z.of_nat i + s + 12) `mod` 12)
        = Some (v !! i).
Proof.
  intros Hlen Hs.
  assert (length (JS.dense v) = 12%nat) as Hd
    by (unfold JS.dense; by rewrite length_fmap).
  split; [|split].
  - apply shiftHPCP_inverse. rewrite Hd. lia.
  - rewrite <- (Z.opp_involutive s) at 2.
    apply shiftHPCP_inverse. rewrite Hd. lia.
  - intros i Hi. rewrite <- (get_dense v i).
    pose proof (shiftHPCP_places (JS.dense v) s i) as Hp.
    rewrite Hd in Hp. apply Hp; lia.
Qed.

Lemma shiftHPCP_roundtrip_12_witness :
  length ramp = 12%nat ∧ -12 ≤ -3 ≤ 12
  ∧ shiftHPCP (shiftHPCP (JS.dense ramp) (-3)) (- (-3)) = JS.dense ramp.
Proof.
  split; [reflexivity|]. split; [lia|].
  apply (shiftHPCP_roundtrip_12 ramp (-3)); [reflexivity | lia].
Defined.

(** C2 as stated fails outside that range: with [s = -13] the first
    rotation writes the value of index 0 under the property name ["-1"],
    leaves a hole at index 11, and the rotation back by [13] cannot restore
    the lost value. *)
Lemma shiftHPCP_roundtrip_fails_at_minus_13 :
  shiftHPCP (JS.dense ramp) (-13) !! Z.to_nat ((0 + -13 + 12) `mod` 12) = Some None
  ∧ shiftHPCP (shiftHPCP (JS.dense ramp) (-13)) (- (-13)) ≠ JS.dense ramp.
Proof. split; [reflexivity|]. vm_compute. discriminate. Qed.

(** ** Frame accumulator *)

Lemma BUFFER_SIZE_eq : Z.of_nat BUFFER_SIZE = 8192.
Proof. reflexivity. Qed.

Lemma totalSamples_concat (acc : list (list float)) :
  totalSamples acc = length (concat acc).
Proof.
  unfold totalSamples.
  enough (∀ n, foldl (λ sum arr, sum + length arr)%nat n acc
               = (n + length (concat acc))%nat) as -> by done.
  induction acc as [|arr acc IH]; intros n; cbn; [lia|].
  rewrite IH, length_app. lia.
Qed.

Lemma buffer_concat (acc : list (list float)) :
  foldl (λ buffer arr, buffer ++ arr) [] acc = concat acc.
Proof.
  enough (∀ b, foldl (λ buffer arr, buffer ++ arr) b acc = b ++ concat acc) as -> by done.
  induction acc as [|arr acc IH]; intros b; cbn; [by rewrite app_nil_r|].
  by rewrite IH, app_assoc.
Qed.

Lemma concat_length_uniform (chunks : list (list float)) n :
  Forall (λ c, length c = n) chunks → length (concat chunks) = (length chunks * n)%nat.
Proof.
  induction 1 as [|c chunks Hc _ IH]; cbn; [done|].
  rewrite length_app, IH, Hc. lia.
Qed.

Lemma accumulate_below acc data :
  (length (concat (acc ++ [data])) < BUFFER_SIZE)%nat →
  accumulate acc data = (acc ++ [data], None).
Proof.
  intros Hlt. unfold accumulate.
  by rewrite bool_decide_eq_false_2 by (rewrite totalSamples_concat; lia).
Qed.

Lemma accumulate_above acc data :
  (BUFFER_SIZE < length (concat (acc ++ [data])))%nat →
  accumulate acc data = ([], Some (take BUFFER_SIZE (concat (acc ++ [data])))).
Proof.
  intros Hlt. unfold accumulate.
  rewrite bool_decide_eq_true_2 by (rewrite totalSamples_concat; lia).
  rewrite buffer_concat.
  by rewrite bool_decide_eq_true_2 by done.
Qed.

(** While the buffered total stays below [BUFFER_SIZE] nothing is emitted
    and every chunk is kept. *)
Lemma push_all_below chunks : ∀ acc emitted,
  (length (concat (acc ++ chunks)) < BUFFER_SIZE)%nat →
  foldl (λ '(acc, emitted) data,
           let '(acc', frame) := accumulate acc data in (acc', emitted ++ [frame]))
        (acc, emitted) chunks
  = (acc ++ chunks, emitted ++ replicate (length chunks) None).
Proof.
  induction chunks as [|c chunks IH]; intros acc emitted Hlt.
  - cbn. by rewrite !app_nil_r.
  - cbn [foldl]. rewrite accumulate_below.
    + rewrite IH by (by rewrite <- app_assoc).
      rewrite <- !app_assoc. done.
    + revert Hlt. rewrite !concat_app, !length_app. cbn.
      rewrite !length_app. cbn [length]. lia.
Qed.

(** Eighty-two chunks of 100 samples: the first 81 pushes stay below
    [BUFFER_SIZE], the last one crosses it. *)
Lemma push_all_82_chunks (chunks : list (list float)) :
  length chunks = 82%nat → Forall (λ c, length c = 100%nat) chunks →
  push_all [] chunks
  = ([], replicate 81 None ++ [Some (take BUFFER_SIZE (concat chunks))]).
Proof.
  intros Hlen Hall.
  pose proof BUFFER_SIZE_eq as HB.
  pose proof (concat_length_uniform chunks 100 Hall) as Htot.
  rewrite Hlen in Htot.
  assert (length (take 81 chunks) = 81%nat) as Htake
    by (rewrite length_take; lia).
  assert (length (drop 81 chunks) = 1%nat) as Hdrop
    by (rewrite length_drop; lia).
  pose proof (take_drop 81 chunks) as Hsplit.
  destruct (drop 81 chunks) as [|c [|? ?]]; try discriminate Hdrop.
  assert (Forall (λ c, length c = 100%nat) (take 81 chunks)) as Hinit
    by (rewrite <- Hsplit in Hall; by apply Forall_app in Hall as [? _]).
  pose proof (concat_length_uniform _ 100 Hinit) as Hinit_len.
  rewrite Htake in Hinit_len.
  rewrite <- Hsplit in Htot |- *.
  unfold push_all. rewrite foldl_app.
  rewrite push_all_below by (cbn [app]; lia).
  cbn [foldl app]. rewrite accumulate_above by lia.
  by rewrite Htake.
Qed.

(** ** Order and special values of binary64 numbers

    The comparisons and operations of [float] are specified by their
    counterparts on [spec_float]; the facts below are proved there and
    carried over. *)


Ltac SF_cmp_cases :=
  repeat match goal with
    | H : context [Z.compare ?a ?b] |- _ => destruct (Z.compare_spec a b)
    | |- context [Z.compare ?a ?b] => destruct (Z.compare_spec a b)
    | H : context [Pos.compare ?a ?b] |- _ => destruct (Pos.compare_spec a b)
    | |- context [Pos.compare ?a ?b] => destruct (Pos.compare_spec a b)
    end.

Ltac SF_crush :=
  cbn in *; change (Pos.compare_cont Eq) with Pos.compare in *;
  SF_cmp_cases; cbn in *; try congruence; try lia.

Lemma SF_compare_refl x : x ≠ S754_nan → SFcompare x x = Some Eq.
Proof. destruct x as [[]|[]| |[] m e]; intros; SF_crush. Qed.

Lemma SF_ltb_irrefl x : SFltb x x = false.
Proof. unfold SFltb. destruct x as [[]|[]| |[] m e]; SF_crush. Qed.

Lemma SF_ltb_trans x y z : SFltb x y = true → SFltb y z = true → SFltb x z = true.
Proof.
  unfold SFltb.
  destruct x as [[]|[]| |[] m e], y as [[]|[]| |[] m' e'], z as [[]|[]| |[] m'' e''];
    intros; SF_crush.
Qed.

Lemma SF_ltb_eqb_r x y z : SFltb x y = true → SFeqb z y = true → SFltb x z = true.
Proof.
  unfold SFltb, SFeqb.
  destruct x as [[]|[]| |[] m e], y as [[]|[]| |[] m' e'], z as [[]|[]| |[] m'' e''];
    intros; SF_crush.
Qed.

Lemma SF_ltb_leb x y : x ≠ S754_nan → y ≠ S754_nan → negb (SFltb x y) = SFleb y x.
Proof.
  unfold SFltb, SFleb.
  destruct x as [[]|[]| |[] m e], y as [[]|[]| |[] m' e']; intros; SF_crush.
Qed.

Lemma SF_leb_not_nan x y : SFleb x y = true → x ≠ S754_nan ∧ y ≠ S754_nan.
Proof.
  unfold SFleb.
  destruct x as [[]|[]| |[] m e], y as [[]|[]| |[] m' e']; intros;
    try discriminate; by split.
Qed.

Lemma SF_ltb_asym x y : SFltb x y = true → SFltb y x = false.
Proof.
  unfold SFltb.
  destruct x as [[]|[]| |[] m e], y as [[]|[]| |[] m' e']; intros; SF_crush.
Qed.

Lemma SF_ltb_not_eqb x y : SFltb x y = true → SFeqb y x = false.
Proof.
  unfold SFltb, SFeqb.
  destruct x as [[]|[]| |[] m e], y as [[]|[]| |[] m' e']; intros; SF_crush.
Qed.

Lemma SF_ltb_neg_trans x y z :
  y ≠ S754_nan → SFltb x y = false → SFltb y z = false → SFltb x z = false.
Proof.
  unfold SFltb.
  destruct x as [[]|[]| |[] m e], y as [[]|[]| |[] m' e'], z as [[]|[]| |[] m'' e''];
    intros; SF_crush.
Qed.

Lemma SF_mul_zero_or_nan_l x y : SF_zero_or_nan x = true → SF_zero_or_nan (SF64mul x y) = true.
Proof. destruct x as [[]|[]| |[] m e], y as [[]|[]| |[] m' e']; done. Qed.

Lemma SF_mul_zero_or_nan_r x y : SF_zero_or_nan y = true → SF_zero_or_nan (SF64mul x y) = true.
Proof. destruct x as [[]|[]| |[] m e], y as [[]|[]| |[] m' e']; done. Qed.

Lemma SF_add_zero_or_nan x y :
  SF_zero_or_nan x = true → SF_zero_or_nan y = true → SF_zero_or_nan (SF64add x y) = true.
Proof. destruct x as [[]|[]| |[] m e], y as [[]|[]| |[] m' e']; done. Qed.

Lemma SF_sqrt_zero_or_nan x : SF_zero_or_nan x = true → SF_zero_or_nan (SF64sqrt x) = true.
Proof. destruct x as [[]|[]| |[] m e]; done. Qed.

Lemma SF_div_zero_or_nan x y :
  SF_zero_or_nan x = true → SF_zero_or_nan y = true → SF64div x y = S754_nan.
Proof. destruct x as [[]|[]| |[] m e], y as [[]|[]| |[] m' e']; done. Qed.



Lemma float_is_nan_spec x : is_nan x = true ↔ Prim2SF x = S754_nan.
Proof.
  unfold is_nan. rewrite FloatAxioms.eqb_spec. unfold SFeqb.
  destruct (Prim2SF x) as [s|s| |s m e] eqn:Hx; [| |done|];
    rewrite SF_compare_refl by done; done.
Qed.

Lemma float_not_nan_spec x : is_nan x = false ↔ Prim2SF x ≠ S754_nan.
Proof.
  pose proof (float_is_nan_spec x) as [H1 H2].
  destruct (is_nan x); split; intros H; try done.
  - by destruct H; apply H1.
  - intros Hn. by specialize (H2 Hn).
Qed.

Lemma float_ltb_irrefl x : (x <? x)%float = false.
Proof. rewrite FloatAxioms.ltb_spec. apply SF_ltb_irrefl. Qed.

Lemma float_ltb_trans x y z :
  (x <? y)%float = true → (y <? z)%float = true → (x <? z)%float = true.
Proof. rewrite !FloatAxioms.ltb_spec. apply SF_ltb_trans. Qed.

Lemma float_ltb_eqb_r x y z :
  (x <? y)%float = true → (z =? y)%float = true → (x <? z)%float = true.
Proof. rewrite !FloatAxioms.ltb_spec, FloatAxioms.eqb_spec. apply SF_ltb_eqb_r. Qed.

Lemma float_ltb_nan_l x : (nan <? x)%float = false.
Proof. by rewrite FloatAxioms.ltb_spec. Qed.

Lemma float_eqb_nan_l x : (nan =? x)%float = false.
Proof. by rewrite FloatAxioms.eqb_spec. Qed.

Lemma float_ltb_nan_r x : (x <? nan)%float = false.
Proof. rewrite FloatAxioms.ltb_spec. unfold SFltb. by destruct (Prim2SF x). Qed.

(** On numbers, [x < y] is false exactly when [y <= x]. *)
Lemma float_ltb_leb x y :
  is_nan x = false → is_nan y = false → negb (x <? y)%float = (y <=? x)%float.
Proof. rewrite !float_not_nan_spec, FloatAxioms.ltb_spec, FloatAxioms.leb_spec. apply SF_ltb_leb. Qed.

Lemma float_leb_not_nan x y :
  (x <=? y)%float = true → is_nan x = false ∧ is_nan y = false.
Proof. rewrite !float_not_nan_spec, FloatAxioms.leb_spec. apply SF_leb_not_nan. Qed.

Lemma float_mul_zero_or_nan_l x y : float_zero_or_nan x = true → float_zero_or_nan (x * y) = true.
Proof. unfold float_zero_or_nan. rewrite FloatAxioms.mul_spec. apply SF_mul_zero_or_nan_l. Qed.

Lemma float_mul_zero_or_nan_r x y : float_zero_or_nan y = true → float_zero_or_nan (x * y) = true.
Proof. unfold float_zero_or_nan. rewrite FloatAxioms.mul_spec. apply SF_mul_zero_or_nan_r. Qed.

Lemma float_add_zero_or_nan x y :
  float_zero_or_nan x = true → float_zero_or_nan y = true → float_zero_or_nan (x + y) = true.
Proof. unfold float_zero_or_nan. rewrite FloatAxioms.add_spec. apply SF_add_zero_or_nan. Qed.

Lemma float_sqrt_zero_or_nan x : float_zero_or_nan x = true → float_zero_or_nan (sqrt x) = true.
Proof. unfold float_zero_or_nan. rewrite FloatAxioms.sqrt_spec. apply SF_sqrt_zero_or_nan. Qed.

Lemma float_div_zero_or_nan x y :
  float_zero_or_nan x = true → float_zero_or_nan y = true → (x / y)%float = nan.
Proof.
  unfold float_zero_or_nan. intros Hx Hy. apply Prim2SF_inj.
  rewrite FloatAxioms.div_spec. by rewrite SF_div_zero_or_nan.
Qed.



Lemma float_ltb_asym x y : (x <? y)%float = true → (y <? x)%float = false.
Proof. rewrite !FloatAxioms.ltb_spec. apply SF_ltb_asym. Qed.

Lemma float_ltb_not_eqb x y : (x <? y)%float = true → (y =? x)%float = false.
Proof. rewrite FloatAxioms.ltb_spec, FloatAxioms.eqb_spec. apply SF_ltb_not_eqb. Qed.

Lemma float_ltb_neg_trans x y z :
  is_nan y = false → (x <? y)%float = false → (y <? z)%float = false →
  (x <? z)%float = false.
Proof. rewrite float_not_nan_spec, !FloatAxioms.ltb_spec. apply SF_ltb_neg_trans. Qed.

(** *** The sign of a rounded difference *)

(** A mantissa of [d] binary digits lies between [2^(d-1)] and [2^d]. *)
Lemma digits2_pos_bounds (m : positive) :
  2 ^ (Zpos (digits2_pos m) - 1) ≤ Zpos m < 2 ^ Zpos (digits2_pos m).
Proof.
  induction m as [m IH|m IH|]; cbn [digits2_pos].
  - rewrite Pos2Z.inj_succ.
    replace (Z.succ (Zpos (digits2_pos m)) - 1) with (Z.succ (Zpos (digits2_pos m) - 1)) by lia.
    rewrite !Z.pow_succ_r by lia. lia.
  - rewrite Pos2Z.inj_succ.
    replace (Z.succ (Zpos (digits2_pos m)) - 1) with (Z.succ (Zpos (digits2_pos m) - 1)) by lia.
    rewrite !Z.pow_succ_r by lia. lia.
  - cbn. lia.
Qed.

(** A right shift by one position halves the mantissa. *)
Lemma shr_1_mantissa mrs : 0 ≤ shr_m mrs → shr_m (shr_1 mrs) = shr_m mrs / 2.
Proof.
  destruct mrs as [m r s]. cbn [shr_m].
  destruct m as [|[p|p|]|p]; cbn [shr_1 shr_m]; intros H; try lia.
  - done.
  - rewrite Pos2Z.inj_xI. apply Z.div_unique with 1; lia.
  - rewrite Pos2Z.inj_xO. apply Z.div_unique with 0; lia.
  - done.
Qed.

Lemma pow2_xO p : 2 ^ Zpos p~0 = 2 ^ Zpos p * 2 ^ Zpos p.
Proof. rewrite <- Z.pow_add_r by lia. f_equal. lia. Qed.

Lemma pow2_xI p : 2 ^ Zpos p~1 = 2 * (2 ^ Zpos p * 2 ^ Zpos p).
Proof.
  rewrite <- Z.pow_add_r, <- Z.pow_succ_r by lia. f_equal. lia.
Qed.

Lemma iter_shr_1_mantissa p : ∀ mrs,
  0 ≤ shr_m mrs → shr_m (SpecFloat.iter_pos shr_1 p mrs) = shr_m mrs / 2 ^ Zpos p.
Proof.
  induction p as [p IH|p IH|]; intros mrs Hm; cbn [SpecFloat.iter_pos].
  - assert (0 < 2 ^ Zpos p) by (apply Z.pow_pos_nonneg; lia).
    assert (0 ≤ shr_m (shr_1 mrs)) as H1
      by (rewrite shr_1_mantissa by done; apply Z.div_pos; lia).
    assert (0 ≤ shr_m (SpecFloat.iter_pos shr_1 p (shr_1 mrs))) as H2
      by (rewrite IH by done; apply Z.div_pos; lia).
    rewrite !IH, shr_1_mantissa by done.
    rewrite !Z.div_div by lia. by rewrite pow2_xI, Z.mul_assoc.
  - assert (0 < 2 ^ Zpos p) by (apply Z.pow_pos_nonneg; lia).
    assert (0 ≤ shr_m (SpecFloat.iter_pos shr_1 p mrs)) as H2
      by (rewrite IH by done; apply Z.div_pos; lia).
    rewrite !IH by done.
    rewrite !Z.div_div by lia. by rewrite pow2_xO.
  - by apply shr_1_mantissa.
Qed.

Lemma shr_record_of_loc_m m l : shr_m (shr_record_of_loc m l) = m.
Proof. by destruct l as [|[]]. Qed.

(** Rounding a positive mantissa to the format, from an exponent that is
    not below the least one, leaves a positive mantissa: at most the
    digits beyond the 53rd are shifted out. *)
Lemma shr_fexp_positive m e l :
  0 < m → emin64 ≤ e →
  0 < shr_m (shr_fexp prec emax m e l).1 ∧ emin64 ≤ (shr_fexp prec emax m e l).2.
Proof.
  intros Hm He. unfold shr_fexp, shr.
  destruct m as [|p|p]; try lia. cbn [Zdigits2].
  pose proof (digits2_pos_bounds p) as [Hlo Hhi].
  set (d := Zpos (digits2_pos p)) in *.
  assert (0 < d) by (unfold d; lia).
  unfold SpecFloat.fexp, SpecFloat.emin in *.
  change prec with 53 in *. change emax with 1024 in *.
  destruct (Z.max (d + e - 53) (3 - 1024 - 53) - e) as [|q|q] eqn:Hn; cbn [fst snd];
    rewrite ?shr_record_of_loc_m; try (split; lia).
  split; [|lia].
  rewrite iter_shr_1_mantissa by (rewrite shr_record_of_loc_m; lia).
  rewrite shr_record_of_loc_m.
  apply Z.div_str_pos. split; [apply Z.pow_pos_nonneg; lia|].
  etrans; [|exact Hlo]. apply Z.pow_le_mono_r; lia.
Qed.

Lemma round_nearest_even_ge m l : m ≤ round_nearest_even m l.
Proof. unfold round_nearest_even. destruct l as [|[]]; try destruct (Z.even m); lia. Qed.

(** Hence a non-zero integer multiple of [2^e], [e] not below the least
    exponent, rounds to a non-zero number of the same sign. *)
Lemma binary_round_aux_nonzero s m e l :
  0 < m → emin64 ≤ e → signed_nonzero s (binary_round_aux prec emax s m e l).
Proof.
  intros Hm He. unfold binary_round_aux.
  pose proof (shr_fexp_positive m e l Hm He) as [Hm1 He1].
  destruct (shr_fexp prec emax m e l) as [mrs' e']. cbn [fst snd] in *.
  pose proof (round_nearest_even_ge (shr_m mrs') (loc_of_shr_record mrs')) as Hr.
  set (m1 := round_nearest_even _ _) in *.
  assert (0 < m1) as Hm1' by lia.
  pose proof (shr_fexp_positive m1 e' loc_Exact Hm1' He1) as [Hm2 He2].
  destruct (shr_fexp prec emax m1 e' loc_Exact) as [mrs'' e'']. cbn [fst snd] in *.
  destruct (shr_m mrs'') as [|q|q]; try lia.
  by destruct (e'' <=? emax - prec).
Qed.

Lemma binary_round_nonzero s m e :
  emin64 ≤ e → signed_nonzero s (binary_round prec emax s m e).
Proof.
  intros He. unfold binary_round, shl_align.
  pose proof (Z.le_max_r (Zpos (digits2_pos m) + e - prec) emin64) as Hf.
  fold (fexp64 (Zpos (digits2_pos m) + e)) in Hf.
  destruct (fexp64 (Zpos (digits2_pos m) + e) - e) as [|q|q];
    apply binary_round_aux_nonzero; lia.
Qed.

Lemma binary_normalize_sign m e :
  emin64 ≤ e →
  SFltb (S754_zero false) (binary_normalize prec emax m e false) = (0 <? m).
Proof.
  intros He. destruct m as [|p|p]; cbn [binary_normalize]; [done| |].
  - pose proof (binary_round_nonzero false p e He) as H.
    destruct (binary_round prec emax false p e) as [|[]| |[] ? ?]; done.
  - pose proof (binary_round_nonzero true p e He) as H.
    destruct (binary_round prec emax true p e) as [|[]| |[] ? ?]; done.
Qed.

(** Aligning a mantissa to a smaller exponent multiplies it by the power
    of two in between. *)
Lemma iter_xO_value m d : Zpos (Pos.iter xO m d) = Zpos m * 2 ^ Zpos d.
Proof.
  induction d as [|d IH] using Pos.peano_ind.
  - cbn. lia.
  - rewrite Pos.iter_succ, Pos2Z.inj_xO, IH, Pos2Z.inj_succ, Z.pow_succ_r by lia. lia.
Qed.

Lemma shl_align_value m e ez :
  ez ≤ e → Zpos (shl_align m e ez).1 = Zpos m * 2 ^ (e - ez).
Proof.
  intros He. unfold shl_align.
  destruct (ez - e) as [|d|d] eqn:Hd; cbn [fst]; try lia.
  - replace (e - ez) with 0 by lia. lia.
  - rewrite iter_xO_value. f_equal. f_equal. lia.
Qed.

(** What validity says about a mantissa and its exponent. *)
Lemma bounded_canonical m e :
  bounded prec emax m e = true →
  emin64 ≤ e ∧ Zpos m < 2 ^ 53 ∧ (e = emin64 ∨ 2 ^ 52 ≤ Zpos m).
Proof.
  unfold bounded, canonical_mantissa, SpecFloat.fexp, SpecFloat.emin.
  change prec with 53. change emax with 1024.
  intros [Hc _]%andb_prop. apply Z.eqb_eq in Hc.
  pose proof (digits2_pos_bounds m) as [Hlo Hhi].
  set (d := Zpos (digits2_pos m)) in *.
  split; [lia|]. split.
  - eapply Z.lt_le_trans; [exact Hhi|]. apply Z.pow_le_mono_r; lia.
  - destruct (decide (e = 3 - 1024 - 53)); [by left|right].
    replace 52 with (d - 1) by lia. done.
Qed.

Lemma pow2_ge_2 k : 1 ≤ k → 2 ≤ 2 ^ k.
Proof. intros Hk. change 2 with (2 ^ 1) at 1. apply Z.pow_le_mono_r; lia. Qed.

(** On valid finite numbers of one sign the order of the values is the
    lexicographic order of exponent and mantissa. *)
Lemma aligned_compare mx ex my ey :
  bounded prec emax mx ex = true → bounded prec emax my ey = true →
  let ez := Z.min ey ex in
  (Zpos (shl_align my ey ez).1 - Zpos (shl_align mx ex ez).1 ?= 0)
  = match ey ?= ex with
    | Lt => Lt | Gt => Gt | Eq => (my ?= mx)%positive
    end.
Proof.
  intros Hx Hy ez.
  apply bounded_canonical in Hx as (Hex & Hmx & Hnx).
  apply bounded_canonical in Hy as (Hey & Hmy & Hny).
  rewrite !shl_align_value by (unfold ez; lia).
  change (2 ^ 53) with 9007199254740992 in *.
  change (2 ^ 52) with 4503599627370496 in *.
  destruct (Z.compare_spec ey ex) as [->|Hlt|Hgt].
  - unfold ez. rewrite Z.min_id, Z.sub_diag. change (2 ^ 0) with 1.
    rewrite !Z.mul_1_r. rewrite <- Z.compare_sub. reflexivity.
  - unfold ez. rewrite Z.min_l, Z.sub_diag by lia. change (2 ^ 0) with 1.
    pose proof (pow2_ge_2 (ex - ey)). apply Z.compare_lt_iff. nia.
  - unfold ez. rewrite Z.min_r, Z.sub_diag by lia. change (2 ^ 0) with 1.
    pose proof (pow2_ge_2 (ey - ex)). apply Z.compare_gt_iff. nia.
Qed.

(** The sign of a difference agrees with the comparison of its operands. *)
Lemma SFsub_sign x y :
  valid_binary x = true → valid_binary y = true →
  SFltb (S754_zero false) (SF64sub y x) = SFltb x y.
Proof.
  intros Hx Hy.
  destruct x as [sx|sx| |sx mx ex], y as [sy|sy| |sy my ey];
    try done; try (by destruct sx, sy); try (by destruct sx); try (by destruct sy).
  cbn [valid_binary] in Hx, Hy.
  pose proof (aligned_compare mx ex my ey Hx Hy) as Hcmp.
  pose proof (aligned_compare my ey mx ex Hy Hx) as Hcmp'.
  pose proof (bounded_canonical _ _ Hx) as (Hex & _).
  pose proof (bounded_canonical _ _ Hy) as (Hey & _).
  unfold SF64sub, SFsub. rewrite binary_normalize_sign by lia.
  cbn zeta in Hcmp, Hcmp'. rewrite (Z.min_comm ex ey) in Hcmp'.
  set (a := Zpos (shl_align my ey (Z.min ey ex)).1) in *.
  set (b := Zpos (shl_align mx ex (Z.min ey ex)).1) in *.
  assert (0 < a ∧ 0 < b) as [Ha Hb] by (unfold a, b; lia).
  clearbody a b.
  unfold SFltb, SFcompare. change (Pos.compare_cont Eq) with Pos.compare.
  rewrite (Z.compare_antisym ey ex), (Pos.compare_antisym my mx).
  destruct (Z.compare_spec (a - b) 0) as [Hab|Hab|Hab];
    destruct sx, sy; cbn [cond_Zopp];
    destruct (ey ?= ex); try discriminate Hcmp;
    try (destruct (my ?= mx)%positive; try discriminate Hcmp);
    cbn [CompOpp]; (apply Z.ltb_lt || apply Z.ltb_ge); lia.
Qed.

Lemma float_sub_sign (a b : float) : (0 <? b - a)%float = (a <? b)%float.
Proof.
  rewrite !FloatAxioms.ltb_spec, FloatAxioms.sub_spec.
  change (Prim2SF 0) with (S754_zero false).
  apply SFsub_sign; apply Prim2SF_valid.
Qed.

(** ** Similarity on an all-zero vector *)

Section AllZero.
Implicit Types (a b : JS.array float).

Lemma zeros_entry n i : float_zero_or_nan (JS.ToNumber (JS.get (zeros n) i)) = true.
Proof.
  unfold zeros. rewrite get_dense.
  destruct (replicate n 0%float !! i) as [x|] eqn:Hx; [|done].
  apply lookup_replicate in Hx as [-> _]. done.
Qed.

Lemma cosine_step_zero_l a b idxs : ∀ dot normA normB,
  (∀ i, float_zero_or_nan (JS.ToNumber (JS.get a i)) = true) →
  float_zero_or_nan dot = true → float_zero_or_nan normA = true →
  ∃ dot' normA' normB',
    foldl (cosine_step a b) (dot, normA, normB) idxs = (dot', normA', normB')
    ∧ float_zero_or_nan dot' = true ∧ float_zero_or_nan normA' = true.
Proof.
  induction idxs as [|i idxs IH]; intros dot normA normB Ha Hd Hn; cbn [foldl].
  - by exists dot, normA, normB.
  - apply IH; [done| |];
      by apply float_add_zero_or_nan; [|apply float_mul_zero_or_nan_l].
Qed.

Lemma cosine_step_zero_r a b idxs : ∀ dot normA normB,
  (∀ i, float_zero_or_nan (JS.ToNumber (JS.get b i)) = true) →
  float_zero_or_nan dot = true → float_zero_or_nan normB = true →
  ∃ dot' normA' normB',
    foldl (cosine_step a b) (dot, normA, normB) idxs = (dot', normA', normB')
    ∧ float_zero_or_nan dot' = true ∧ float_zero_or_nan normB' = true.
Proof.
  induction idxs as [|i idxs IH]; intros dot normA normB Hb Hd Hn; cbn [foldl].
  - by exists dot, normA, normB.
  - apply IH; [done| |];
      by apply float_add_zero_or_nan; [|apply float_mul_zero_or_nan_r].
Qed.

(** [0/0]: the quotient is [NaN] whichever vector is the all-zero one. *)
Lemma cosineSimilarity_zeros_l n b : cosineSimilarity (zeros n) b = nan.
Proof.
  unfold cosineSimilarity.
  destruct (cosine_step_zero_l (zeros n) b (seq 0 (length (zeros n))) 0 0 0
              (zeros_entry n) eq_refl eq_refl)
    as (dot & normA & normB & -> & Hd & Hn).
  apply float_div_zero_or_nan; [done|].
  by apply float_mul_zero_or_nan_l, float_sqrt_zero_or_nan.
Qed.

Lemma cosineSimilarity_zeros_r n a : cosineSimilarity a (zeros n) = nan.
Proof.
  unfold cosineSimilarity.
  destruct (cosine_step_zero_r a (zeros n) (seq 0 (length a)) 0 0 0
              (zeros_entry n) eq_refl eq_refl)
    as (dot & normA & normB & -> & Hd & Hn).
  apply float_div_zero_or_nan; [done|].
  by apply float_mul_zero_or_nan_r, float_sqrt_zero_or_nan.
Qed.

(** A template whose score is [NaN] never replaces the best one. *)
Lemma detect_loop_nan a (es : list (string * JS.array float)) best :
  Forall (λ e, cosineSimilarity a e.2 = nan) es →
  foldl (detect_step a) best es = best.
Proof.
  induction 1 as [|e es He _ IH]; cbn [foldl]; [done|].
  unfold detect_step at 2. by rewrite He, float_ltb_nan_r.
Qed.

Lemma detectChord_zeros n (lib : JS.object (JS.array float)) :
  detectChord (zeros n) lib = JS.null.
Proof.
  unfold detectChord. rewrite detect_loop_nan; [done|].
  apply Forall_forall. intros e _. apply cosineSimilarity_zeros_l.
Qed.

End AllZero.

(** C10: on the all-zero 12-vector every similarity against the library
    is the [0/0] value [NaN], the comparison [score > bestScore] is false
    for every template, and [detectChord] returns the initial [null]. *)
Theorem detectChord_all_zero_is_null :
  Forall (λ e, cosineSimilarity (zeros 12) e.2 = (0 / 0)%float
               ∧ (neg_infinity <? cosineSimilarity (zeros 12) e.2)%float = false)
         (JS.entries chordTemplates)
  ∧ foldl (detect_step (zeros 12)) (JS.null, neg_infinity) (JS.entries chordTemplates)
      = (JS.null, neg_infinity)
  ∧ detectChord (zeros 12) chordTemplates = JS.null
  ∧ Forall (λ e, detectChord (zeros 12) chordTemplates ≠ Some e.1) chordTemplates.
Proof.
  assert (Forall (λ e : string * JS.array float,
                    cosineSimilarity (zeros 12) e.2 = nan)
                 (JS.entries chordTemplates)) as Hnan
    by (apply Forall_forall; intros e _; apply cosineSimilarity_zeros_l).
  split; [|split; [|split]].
  - eapply Forall_impl; [exact Hnan|]. intros e ->. by split.
  - by apply detect_loop_nan.
  - apply detectChord_zeros.
  - apply Forall_forall. intros e _. by rewrite detectChord_zeros.
Qed.

(** C1, as amended: an all-zero vector makes [cosineSimilarity] return
    [NaN], whichever argument it is; [NaN] is smaller than, greater than and
    equal to no score; [detectChord] still returns, and its result on an
    all-zero vector is [null] for every template library, never a label. *)
Theorem all_zero_similarity_is_NaN n :
  (∀ b, cosineSimilarity (zeros n) b = nan)
  ∧ (∀ a, cosineSimilarity a (zeros n) = nan)
  ∧ (∀ x, (nan <? x)%float = false ∧ (x <? nan)%float = false
          ∧ (nan =? x)%float = false)
  ∧ (∀ lib : JS.object (JS.array float), detectChord (zeros n) lib = JS.null).
Proof.
  split; [|split; [|split]].
  - apply cosineSimilarity_zeros_l.
  - apply cosineSimilarity_zeros_r.
  - intros x. by rewrite float_ltb_nan_l, float_ltb_nan_r, float_eqb_nan_l.
  - apply detectChord_zeros.
Qed.

(** C1 as stated fails in its first half: the value returned for the
    all-zero 12-vector against the template of C major is [NaN], which is
    not a score. *)
Lemma all_zero_similarity_not_a_score :
  cosineSimilarity (zeros 12) template_C_maj = nan
  ∧ defined_score (cosineSimilarity (zeros 12) template_C_maj) = false.
Proof. split; reflexivity. Qed.

(** ** Chord detection is a first-maximum search *)

Section DetectChord.
Variable v : JS.array float.
Implicit Types (es : list (string * JS.array float)) (best : option string * float).

Lemma first_maximum_bound es best :
  first_maximum v es best →
  (best.2 = neg_infinity ∨ (neg_infinity <? best.2)%float = true)
  ∧ ∀ j e, es !! j = Some e → (best.2 <? cosineSimilarity v e.2)%float = false.
Proof.
  unfold first_maximum. destruct best as [[chord|] bs]; cbn.
  - intros (k & t & _ & _ & Hinf & Hle & _). auto.
  - intros [-> Hall]. split; [auto|].
    intros j e He. apply Hall. by eapply list_elem_of_lookup_2.
Qed.

Lemma detect_step_spec es best e :
  first_maximum v es best → first_maximum v (es ++ [e]) (detect_step v best e).
Proof.
  intros Hbest.
  destruct (first_maximum_bound es best Hbest) as [Hinf Hle].
  unfold detect_step.
  destruct (best.2 <? cosineSimilarity v e.2)%float eqn:Hlt.
  - (* the new entry takes over *)
    assert (∀ j e', es !! j = Some e' →
              (cosineSimilarity v e.2 <? cosineSimilarity v e'.2)%float = false)
      as Hle'.
    { intros j e' He'.
      destruct (cosineSimilarity v e.2 <? cosineSimilarity v e'.2)%float eqn:Hc;
        [|done].
      rewrite <- (Hle j e' He'). symmetry. by eapply float_ltb_trans. }
    unfold first_maximum. cbn.
    exists (length es), e.2. repeat split.
    + rewrite lookup_app_r, Nat.sub_diag by done. by destruct e.
    + destruct Hinf as [Hb|Hinf]; [rewrite Hb in Hlt; exact Hlt|].
      by eapply float_ltb_trans.
    + intros j e' [He'|[_ He']]%lookup_app_Some; [by eapply Hle'|].
      destruct (j - length es)%nat; [|done].
      injection He' as <-. apply float_ltb_irrefl.
    + intros j e' He' Hj. rewrite lookup_app_l in He' by done.
      destruct (cosineSimilarity v e'.2 =? cosineSimilarity v e.2)%float eqn:Hc;
        [|done].
      rewrite <- (Hle j e' He'). symmetry. by eapply float_ltb_eqb_r.
  - (* the best entry stays *)
    unfold first_maximum in *. destruct best as [[chord|] bs]; cbn in *.
    + destruct Hbest as (k & t & Hk & Hbs & Hi & Hmax & Hfirst).
      exists k, t. repeat split; try done.
      * by apply lookup_app_l_Some.
      * intros j e' [He'|[_ He']]%lookup_app_Some; [by eapply Hmax|].
        destruct (j - length es)%nat; [|done]. by injection He' as <-.
      * intros j e' He' Hj. apply lookup_lt_Some in Hk.
        rewrite lookup_app_l in He' by lia. by eapply Hfirst.
    + destruct Hbest as [-> Hall]. split; [done|].
      intros e' [He'|He'%list_elem_of_singleton]%elem_of_app; [auto|by subst].
Qed.

Lemma detect_loop_spec es :
  first_maximum v es (foldl (detect_step v) (JS.null, neg_infinity) es).
Proof.
  induction es as [|e es IH] using rev_ind.
  - split; [done|]. intros e He. by apply elem_of_nil in He.
  - rewrite foldl_app. cbn [foldl]. by apply detect_step_spec.
Qed.

End DetectChord.

(** C5, as amended: [detectChord] returns [null] exactly when no entry of
    the library has a similarity above [-Infinity] (a [NaN] similarity is
    above nothing).  Otherwise it returns the label of an entry whose
    similarity is above [-Infinity], hence a number, which the similarity
    of no entry exceeds and which the similarity of no earlier entry, in
    the enumeration order of the library, equals: the first entry of
    numeric similarity that none exceeds.  An entry of [NaN] similarity is
    never returned although nothing exceeds [NaN]: on the vector whose
    only non-zero entry is [2^-700] at C#, the first entry ["C:7"] has the
    similarity [NaN] and the label returned is ["C#:7"].  On the template
    of C major it returns ["C:maj"], and the similarity of that template
    with itself evaluates to [1.0000000000000002], the binary64 number
    after 1, because [sqrt 3 * sqrt 3] rounds below 3. *)
Theorem detectChord_first_maximum :
  (∀ (v : JS.array float) (lib : JS.object (JS.array float)),
     ∃ bestScore, first_maximum v (JS.entries lib) (detectChord v lib, bestScore))
  ∧ (∀ (v : JS.array float) (lib : JS.object (JS.array float)),
       detectChord v lib = JS.null
       ↔ ∀ e, e ∈ JS.entries lib → (neg_infinity <? cosineSimilarity v e.2)%float = false)
  ∧ (∀ (v : JS.array float) (lib : JS.object (JS.array float)) k chord t,
       JS.entries lib !! k = Some (chord, t) → is_nan (cosineSimilarity v t) = true →
       NoDup (JS.entries lib).*1 → detectChord v lib ≠ Some chord)
  ∧ JS.entries chordTemplates !! 0%nat = Some ("C:7", generateChordTemplate 0 [0; 4; 7; 10])
  ∧ is_nan (cosineSimilarity faint_C_sharp (generateChordTemplate 0 [0; 4; 7; 10])) = true
  ∧ detectChord faint_C_sharp chordTemplates = Some "C#:7"
  ∧ filter (λ e, e.2 = template_C_maj) chordTemplates = [("C:maj", template_C_maj)]
  ∧ detectChord template_C_maj chordTemplates = Some "C:maj"
  ∧ cosineSimilarity template_C_maj template_C_maj = 0x1.0000000000001p+0%float
  ∧ (1 <? cosineSimilarity template_C_maj template_C_maj)%float = true.
Proof.
  split; [|split; [|split; [|by vm_compute]]].
  - intros v lib. unfold detectChord.
    pose proof (detect_loop_spec v (JS.entries lib)) as H.
    destruct (foldl _ _ _) as [chord bestScore]. by exists bestScore.
  - intros v lib. unfold detectChord.
    pose proof (detect_loop_spec v (JS.entries lib)) as H.
    destruct (foldl _ _ _) as [[chord|] bestScore]; cbn [fst].
    + split; [done|]. intros Hnone.
      destruct H as (k & t & Hk & Hbs & Hinf & _). cbn [snd] in *.
      apply list_elem_of_lookup_2 in Hk. apply Hnone in Hk. cbn [snd] in Hk.
      congruence.
    + split; [|done]. intros _. by destruct H as [_ H].
  - intros v lib k chord t Hk Hnan Hnodup. unfold detectChord.
    pose proof (detect_loop_spec v (JS.entries lib)) as H.
    destruct (foldl _ _ _) as [[chord'|] bestScore]; cbn [fst]; [|done].
    intros [= ->].
    destruct H as (k' & t' & Hk' & Hbs & Hinf & _). cbn [snd] in *.
    assert (k' = k) as ->.
    { eapply NoDup_lookup; [exact Hnodup| |];
        rewrite list_lookup_fmap; [by rewrite Hk'|by rewrite Hk]. }
    rewrite Hk in Hk'. injection Hk' as <-.
    rewrite Hbs, FloatAxioms.ltb_spec in Hinf.
    apply float_is_nan_spec in Hnan. rewrite Hnan in Hinf. discriminate Hinf.
Qed.

(** C5 as stated fails twice: the similarity of the C major template with
    itself is not [1.0], and on the all-zero vector no label is returned at
    all although the library is not empty. *)
Lemma detectChord_not_similarity_one :
  (cosineSimilarity template_C_maj template_C_maj =? 1)%float = false
  ∧ cosineSimilarity template_C_maj template_C_maj ≠ 1%float
  ∧ detectChord (zeros 12) chordTemplates = JS.null
  ∧ length chordTemplates = 60%nat.
Proof.
  split; [reflexivity|]. split; [|by vm_compute].
  intros H. apply (f_equal (λ x, (x =? 1)%float)) in H. by vm_compute in H.
Qed.

(** ** The template library *)

(** [Object.entries(chordTypes)] starts with the quality ["7"], whose name
    is an array index; no label of the library is one, so the library is
    enumerated in creation order. *)
Lemma chordTypes_enumeration :
  (JS.entries chordTypes).*1 = ["7"; "maj"; "min"; "dim"; "aug"].
Proof. reflexivity. Qed.

Lemma chordTemplates_enumeration : JS.entries chordTemplates = chordTemplates.
Proof. by vm_compute. Qed.

(** C7: the library has exactly 60 entries, one per root and quality under
    distinct labels; the entry of root [i] and quality [type] is a 12-vector
    with [1] at the positions [(i + interval) mod 12] and [0] elsewhere, so
    it has as many ones as the quality has intervals; and
    [generateChordTemplate 0 [0;4;7]] is [[1,0,0,0,1,0,0,1,0,0,0,0]]. *)
Theorem chord_template_library :
  length chordTemplates = 60%nat
  ∧ NoDup chordTemplates.*1
  ∧ chordTemplates
    = flat_map (λ i, (λ q, (chord_label i q.1, template_of i q)) <$> JS.entries chordTypes)
               (seq 0 12)
  ∧ Forall (λ i, Forall (λ q : string * list Z,
        JS.lookup chordTemplates (chord_label i q.1) = Some (template_of i q)
        ∧ length (template_of i q) = 12%nat
        ∧ Forall (λ j, template_of i q !! j
                       = Some (Some (if bool_decide (Z.of_nat j ∈ chord_positions i q.2)
                                     then 1%float else 0%float)))
                 (seq 0 12)
        ∧ length (filter (λ x, is_one x = true) (template_of i q)) = length q.2
        ∧ length (filter (λ x, x = Some 0%float) (template_of i q))
          = (12 - length q.2)%nat)
      chordTypes) (seq 0 12)
  ∧ generateChordTemplate 0 [0; 4; 7]
    = JS.dense [1; 0; 0; 0; 1; 0; 0; 1; 0; 0; 0; 0]%float.
Proof.
  split; [by vm_compute|].
  split; [by apply (bool_decide_unpack _); vm_compute|].
  split; [by vm_compute|].
  split; [|by vm_compute].
  by apply (bool_decide_unpack _); vm_compute.
Qed.

(** ** Smoothing *)

Lemma sums_lookup (vs : list (JS.array float)) : ∀ (init : list float) i,
  foldl (λ acc curr, imap (λ i val, val + JS.ToNumber (JS.get curr i))%float acc)
        init vs !! i
  = (λ x, foldl (λ sum v, sum + JS.ToNumber (JS.get v i))%float x vs) <$> init !! i.
Proof.
  induction vs as [|v vs IH]; intros init i; cbn [foldl].
  - by destruct (init !! i).
  - rewrite IH, list_lookup_imap. by destruct (init !! i).
Qed.

(** The reduction of lines 189-191 computes the element-wise mean. *)
Lemma averageHPCP_mean (vs : list (JS.array float)) :
  averageHPCP vs = JS.dense (mean_vector vs).
Proof.
  unfold averageHPCP, mean_vector, JS.dense. f_equal.
  apply list_eq. intros i.
  rewrite !list_lookup_fmap, sums_lookup.
  destruct (decide (i < 12)%nat) as [Hi|Hi].
  - rewrite lookup_replicate_2, lookup_seq_lt by done. done.
  - rewrite lookup_seq_ge by lia.
    by rewrite (proj1 (lookup_replicate_None _ _ _)) by lia.
Qed.

Section PipelineFacts.
Variable RMS : list float → float.
Variable hpcpExtractor : list float → JS.array float.
Variable toFixed2 : float → string.

Abbreviation process := (process RMS hpcpExtractor toFixed2).
Abbreviation onmessage := (onmessage RMS hpcpExtractor toFixed2).
Abbreviation smooth := (smooth toFixed2).

Lemma smooth_result_unchanged st now :
  (SMOOTHING_INTERVAL <=? now - lastSmoothingTime st)%float = false →
  smooth st now = st.
Proof. unfold smooth. by intros ->. Qed.

Lemma process_rejected st buffer now :
  loud_enough (RMS buffer) = false → result (process st buffer now).1 = result st.
Proof. unfold process. intros ->. by destruct (essentiaExtractor st). Qed.

Lemma process_no_flush st buffer now :
  essentiaExtractor st && loud_enough (RMS buffer)
    && (SMOOTHING_INTERVAL <=? now - lastSmoothingTime st)%float = false →
  result (process st buffer now).1 = result st.
Proof.
  unfold process. destruct (essentiaExtractor st); [|reflexivity].
  destruct (loud_enough (RMS buffer)); [|reflexivity].
  cbn [andb fst]. intros H. rewrite smooth_result_unchanged; [reflexivity|exact H].
Qed.

Lemma smooth_sampleAccumulator st now :
  sampleAccumulator (smooth st now) = sampleAccumulator st.
Proof.
  unfold smooth.
  by destruct (SMOOTHING_INTERVAL <=? now - lastSmoothingTime st)%float.
Qed.

Lemma process_sampleAccumulator st buffer now :
  sampleAccumulator (process st buffer now).1 = sampleAccumulator st.
Proof.
  unfold process. destruct (essentiaExtractor st); [|reflexivity].
  destruct (loud_enough (RMS buffer)); [|reflexivity].
  cbn [fst]. by rewrite smooth_sampleAccumulator.
Qed.

Lemma onmessage_sampleAccumulator st data now :
  sampleAccumulator (onmessage st data now).1
  = (accumulate (sampleAccumulator st) data).1.
Proof.
  unfold onmessage.
  destruct (accumulate (sampleAccumulator st) data) as [acc [buffer|]];
    [|reflexivity].
  by rewrite process_sampleAccumulator.
Qed.

(** The handler treats the sample accumulator as [push_all] does, whatever
    the extractor answers and whatever the clock shows. *)
Lemma run_sampleAccumulator msgs : ∀ st emitted,
  sampleAccumulator (run RMS hpcpExtractor toFixed2 st msgs)
  = (foldl (λ '(acc, emitted) data,
              let '(acc', frame) := accumulate acc data in (acc', emitted ++ [frame]))
           (sampleAccumulator st, emitted) msgs.*1).1.
Proof.
  unfold run. induction msgs as [|[data now] msgs IH]; intros st emitted; [done|].
  cbn [foldl fmap list_fmap fst]. rewrite (IH _ (emitted ++ [(accumulate (sampleAccumulator st) data).2])).
  rewrite onmessage_sampleAccumulator.
  by destruct (accumulate (sampleAccumulator st) data).
Qed.

End PipelineFacts.

(** C4: a frame that passes the gate is appended to the accumulation; the
    window is flushed only if then [now - lastSmoothingTime >= 250], and
    the accumulation holds at least that one vector; the flush computes the
    element-wise mean of all accumulated vectors, empties the accumulation,
    sets [lastSmoothingTime] to [now] and stores the detection made on the
    mean; before the window has elapsed nothing but the accumulation
    changes.  The mean of the three unit vectors of indices 0, 1 and 2 is
    1/3 at these indices and 0 elsewhere. *)
Theorem smoothing_window_flush
    (RMS : list float → float) (hpcpExtractor : list float → JS.array float)
    (toFixed2 : float → string) (st : state) (buffer : list float) (now : float) :
  essentiaExtractor st = true → loud_enough (RMS buffer) = true →
  let acc := hpcpAccumulation st ++ [shiftHPCP (hpcpExtractor buffer) (-3)] in
  let st' := (process RMS hpcpExtractor toFixed2 st buffer now).1 in
  (if (250 <=? now - lastSmoothingTime st)%float
   then acc ≠ []
        ∧ hpcpAccumulation st' = []
        ∧ lastSmoothingTime st' = now
        ∧ lastChordResult st' = detectChord (JS.dense (mean_vector acc)) chordTemplates
        ∧ lastNotesResult st'
          = topNotes toFixed2 (detectNotes (JS.dense (mean_vector acc)) 0.1)
   else st' = set_hpcpAccumulation acc st)
  ∧ averageHPCP acc = JS.dense (mean_vector acc)
  ∧ averageHPCP [unit_vector 0; unit_vector 1; unit_vector 2]
    = JS.dense [1 / 3; 1 / 3; 1 / 3; 0; 0; 0; 0; 0; 0; 0; 0; 0]%float.
Proof.
  intros Hext Hloud acc st'. split; [|split; [apply averageHPCP_mean|by vm_compute]].
  subst st'. unfold process. rewrite Hext, Hloud. cbn [fst].
  unfold smooth. cbn [lastSmoothingTime hpcpAccumulation set_hpcpAccumulation].
  fold acc. change SMOOTHING_INTERVAL with 250%float.
  destruct (250 <=? now - lastSmoothingTime st)%float; [|done].
  cbn. rewrite averageHPCP_mean. repeat split. by destruct (hpcpAccumulation st).
Qed.

Lemma smoothing_window_flush_witness :
  let st := extractor_loaded (initial_state 0) in
  essentiaExtractor st = true ∧ loud_enough (constant_RMS 0.5 []) = true
  ∧ lastChordResult
      (process (constant_RMS 0.5) (constant_hpcp (unit_vector 3)) plain_toFixed2
               st [] 300).1
    = detectChord
        (JS.dense (mean_vector (hpcpAccumulation st ++ [shiftHPCP (unit_vector 3) (-3)])))
        chordTemplates.
Proof.
  split; [reflexivity|]. split; [reflexivity|].
  apply (smoothing_window_flush (constant_RMS 0.5) (constant_hpcp (unit_vector 3))
           plain_toFixed2 (extractor_loaded (initial_state 0)) [] 300);
    reflexivity.
Defined.

(** C3: 82 chunks of 100 samples pushed into the empty accumulator: the
    first 81 pushes emit nothing, the 82nd emits one frame, the first 8192
    of the 8200 samples in arrival order; the other 8 samples are in no
    frame and not in the accumulator, which is empty afterwards, also when
    the pushes are runs of the handler, whatever happens to the frame. *)
Theorem accumulator_82_chunks_of_100
    (RMS : list float → float) (hpcpExtractor : list float → JS.array float)
    (toFixed2 : float → string) (chunks : list (list float)) :
  length chunks = 82%nat → Forall (λ c, length c = 100%nat) chunks →
  let frame := take BUFFER_SIZE (concat chunks) in
  let dropped := drop BUFFER_SIZE (concat chunks) in
  push_all [] chunks = ([], replicate 81 None ++ [Some frame])
  ∧ Z.of_nat (length frame) = 8192
  ∧ concat chunks = frame ++ dropped
  ∧ length dropped = 8%nat
  ∧ ∀ st nows, sampleAccumulator st = [] → length nows = 82%nat →
      sampleAccumulator (run RMS hpcpExtractor toFixed2 st (zip chunks nows)) = [].
Proof.
  intros Hlen Hall frame dropped.
  pose proof BUFFER_SIZE_eq as HB.
  pose proof (concat_length_uniform chunks 100 Hall) as Htot.
  rewrite Hlen in Htot.
  split; [by apply push_all_82_chunks|].
  split; [unfold frame; rewrite length_take; lia|].
  split; [unfold frame, dropped; by rewrite take_drop|].
  split; [unfold dropped; rewrite length_drop; lia|].
  intros st nows Hst Hnows.
  rewrite (run_sampleAccumulator RMS hpcpExtractor toFixed2 _ st []).
  rewrite fst_zip, Hst by lia.
  fold (push_all [] chunks). by rewrite push_all_82_chunks.
Qed.

Lemma accumulator_82_chunks_of_100_witness :
  length chunks_82 = 82%nat ∧ Forall (λ c, length c = 100%nat) chunks_82
  ∧ push_all [] chunks_82
    = ([], replicate 81 None ++ [Some (take BUFFER_SIZE (concat chunks_82))]).
Proof.
  split; [reflexivity|].
  split; [by apply (bool_decide_unpack _); vm_compute|].
  apply (accumulator_82_chunks_of_100 (constant_RMS 0.5) (constant_hpcp (unit_vector 3))
           plain_toFixed2 chunks_82);
    [reflexivity | by apply (bool_decide_unpack _); vm_compute].
Defined.

(** ** The loudness gate *)

(** C6: the gate accepts a frame exactly when its RMS, a number, is at
    least 0.05: 0.049 is rejected and 0.05 itself accepted; a rejected frame leaves the
    whole state as it is, so nothing is added to the smoothing accumulation
    and the stored result stays, while an accepted frame is rotated,
    appended to the accumulation and smoothed. *)
Theorem loudness_gate_inclusive
    (RMS : list float → float) (hpcpExtractor : list float → JS.array float)
    (toFixed2 : float → string) (st : state) (buffer : list float) (now : float) :
  essentiaExtractor st = true → is_nan (RMS buffer) = false →
  loud_enough 0.049 = false
  ∧ loud_enough 0.05 = true
  ∧ loud_enough (RMS buffer) = (0.05 <=? RMS buffer)%float
  ∧ process RMS hpcpExtractor toFixed2 st buffer now
    = if (0.05 <=? RMS buffer)%float
      then (smooth toFixed2
              (set_hpcpAccumulation
                 (hpcpAccumulation st ++ [shiftHPCP (hpcpExtractor buffer) (-3)]) st)
              now, Returned)
      else (st, Returned).
Proof.
  intros Hext Hnan.
  assert (loud_enough (RMS buffer) = (0.05 <=? RMS buffer)%float) as Hgate
    by (unfold loud_enough; by apply float_ltb_leb).
  repeat split; [done|].
  unfold process. rewrite Hext, Hgate. by destruct (0.05 <=? RMS buffer)%float.
Qed.

Lemma loudness_gate_inclusive_witness :
  let st := extractor_loaded (initial_state 0) in
  essentiaExtractor st = true ∧ is_nan (constant_RMS 0.049 []) = false
  ∧ process (constant_RMS 0.049) (constant_hpcp (unit_vector 3)) plain_toFixed2 st [] 300
    = (st, Returned).
Proof.
  split; [reflexivity|]. split; [reflexivity|].
  apply (loudness_gate_inclusive (constant_RMS 0.049) (constant_hpcp (unit_vector 3))
           plain_toFixed2 (extractor_loaded (initial_state 0)) [] 300);
    reflexivity.
Defined.

(** ** The stored result *)

(** C9: a run of the handler that does not flush the smoothing window
    leaves the stored result as it was; in particular a frame the loudness
    gate rejects does; and [stopAudioWorkletStream] keeps the stored result
    and shows it. *)
Theorem result_changes_only_on_flush
    (RMS : list float → float) (hpcpExtractor : list float → JS.array float)
    (toFixed2 : float → string) (st : state) (data : list float) (now : float) :
  flushes RMS st data now = false →
  result (onmessage RMS hpcpExtractor toFixed2 st data now).1 = result st
  ∧ (∀ buffer, loud_enough (RMS buffer) = false →
       result (process RMS hpcpExtractor toFixed2 st buffer now).1 = result st)
  ∧ result (stopAudioWorkletStream st) = result st
  ∧ chord_display (stopAudioWorkletStream st)
    = "Last Detected Chord: " +:+ JS.string_of_null (lastChordResult st)
        +:+ "<br>Notes: " +:+ lastNotesResult st.
Proof.
  intros Hflush. split; [|split; [|done]].
  - revert Hflush. unfold flushes, onmessage.
    destruct (accumulate (sampleAccumulator st) data) as [acc [buffer|]]; cbn [snd].
    + intros H. by rewrite process_no_flush.
    + reflexivity.
  - intros buffer. apply process_rejected.
Qed.

Lemma result_changes_only_on_flush_witness :
  let st := extractor_loaded (initial_state 0) in
  flushes (constant_RMS 0.5) st [0.5%float] 300 = false
  ∧ result (onmessage (constant_RMS 0.5) (constant_hpcp (unit_vector 3)) plain_toFixed2
              st [0.5%float] 300).1
    = result st.
Proof.
  split; [by vm_compute|].
  apply (result_changes_only_on_flush (constant_RMS 0.5) (constant_hpcp (unit_vector 3))
           plain_toFixed2 (extractor_loaded (initial_state 0)) [0.5%float] 300).
  by vm_compute.
Defined.

(** ** Dominant notes *)

Lemma sort_insert_fmap {A B} (f : A → B) (comparefn : B → B → float) x
    (l : list A) :
  JS.sort_insert comparefn (f x) (f <$> l)
  = f <$> JS.sort_insert (λ a b, comparefn (f a) (f b)) x l.
Proof.
  induction l as [|y l IH]; cbn; [done|].
  destruct (0 <? comparefn (f x) (f y))%float; cbn; [by rewrite IH|done].
Qed.

Lemma sort_fmap {A B} (f : A → B) (comparefn : B → B → float) (l : list A) :
  JS.sort comparefn (f <$> l) = f <$> JS.sort (λ a b, comparefn (f a) (f b)) l.
Proof.
  unfold JS.sort. induction l as [|x l IH]; cbn; [done|].
  by rewrite IH, sort_insert_fmap.
Qed.

Lemma filter_fmap {A B} (f : A → B) (P : B → Prop) `{∀ b, Decision (P b)}
    (l : list A) :
  filter P (f <$> l) = f <$> filter (λ a, P (f a)) l.
Proof.
  induction l as [|x l IH]; [done|].
  rewrite fmap_cons, !filter_cons, IH. by destruct (decide (P (f x))).
Qed.

Lemma sort_insert_perm {A} (comparefn : A → A → float) x l :
  JS.sort_insert comparefn x l ≡ₚ x :: l.
Proof.
  induction l as [|y l IH]; cbn; [done|].
  destruct (0 <? comparefn x y)%float; [|done].
  rewrite IH. apply Permutation_swap.
Qed.

Lemma sort_perm {A} (comparefn : A → A → float) l : JS.sort comparefn l ≡ₚ l.
Proof.
  unfold JS.sort. induction l as [|x l IH]; cbn; [done|].
  by rewrite sort_insert_perm, IH.
Qed.

Lemma filter_seq_increasing (P : nat → Prop) `{∀ i, Decision (P i)} n : ∀ j,
  StronglySorted lt (filter P (seq j n)).
Proof.
  induction n as [|n IH]; intros j; cbn [seq]; [constructor|].
  rewrite filter_cons. destruct (decide (P j)); [|apply IH].
  apply StronglySorted_cons. split; [|apply IH].
  apply Forall_forall. intros i [_ Hi%elem_of_seq]%list_elem_of_filter. lia.
Qed.

Section DetectNotes.
Variable v : JS.array float.

Abbreviation comparefn := (λ i j, strength v j - strength v i)%float.

(** Inserting an index smaller than all those already ranked keeps the
    ranking: it passes exactly the entries of larger value. *)
Lemma sort_insert_ranked x s :
  Forall (λ y, is_nan (strength v y) = false) s →
  Forall (λ y, (x < y)%nat) s →
  StronglySorted (ranked_before v) s →
  StronglySorted (ranked_before v) (JS.sort_insert comparefn x s).
Proof.
  intros Hnum Hidx Hs.
  induction Hs as [|y s Hs IH Hy]; cbn [JS.sort_insert].
  - repeat constructor.
  - apply Forall_cons in Hnum as [Hynum Hnum].
    apply Forall_cons in Hidx as [Hxy Hidx].
    rewrite float_sub_sign.
    destruct (strength v x <? strength v y)%float eqn:Hlt.
    + apply StronglySorted_cons. split; [|by apply IH].
      rewrite sort_insert_perm. apply Forall_cons. split; [|done].
      split; [by apply float_ltb_asym|].
      by rewrite float_ltb_not_eqb.
    + apply StronglySorted_cons. split; [|by constructor].
      apply Forall_cons. split; [by split|].
      rewrite Forall_forall in Hy, Hidx |- *.
      intros z Hz. destruct (Hy z Hz) as [Hyz _].
      split; [by eapply float_ltb_neg_trans|]. intros _. by apply Hidx.
Qed.

Lemma sort_ranked l :
  Forall (λ y, is_nan (strength v y) = false) l →
  StronglySorted lt l →
  StronglySorted (ranked_before v) (JS.sort comparefn l).
Proof.
  unfold JS.sort. intros Hnum Hl.
  induction Hl as [|x l Hl IH Hx]; cbn [foldr]; [constructor|].
  apply Forall_cons in Hnum as [_ Hnum].
  fold (JS.sort comparefn l).
  apply sort_insert_ranked.
  - by rewrite sort_perm.
  - by rewrite sort_perm.
  - by apply IH.
Qed.

Lemma detectNotes_indices threshold :
  detectNotes v threshold = note_at v <$> dominant_indices v threshold.
Proof.
  unfold detectNotes, dominant_indices. by rewrite filter_fmap, sort_fmap.
Qed.

Lemma dominant_indices_spec threshold :
  NoDup (dominant_indices v threshold)
  ∧ (∀ i, i ∈ dominant_indices v threshold
          ↔ (i < length v)%nat ∧ (threshold <=? strength v i)%float = true)
  ∧ StronglySorted (ranked_before v) (dominant_indices v threshold).
Proof.
  unfold dominant_indices.
  set (l := filter _ (seq 0 (length v))).
  split; [|split].
  - rewrite sort_perm. apply NoDup_filter, NoDup_seq.
  - intros i. rewrite sort_perm. unfold l.
    rewrite list_elem_of_filter, elem_of_seq.
    split; [intros [Hi [_ Hlt]] | intros [Hlt Hi]]; (split; [lia || done | done || lia]).
  - apply sort_ranked; [|apply filter_seq_increasing].
    apply Forall_forall. intros i [Hi _]%list_elem_of_filter.
    by apply float_leb_not_nan in Hi as [_ ?].
Qed.

End DetectNotes.

(** C8: [detectNotes] returns exactly the pitch classes whose value is at
    least the threshold, each once, ordered by value descending and, among
    equal values, by pitch-class index ascending; on the template of C major
    with threshold 0.1 it returns C, E and G with value 1, in this order. *)
Theorem detectNotes_ranked (v : JS.array float) (threshold : float) :
  detectNotes v threshold = note_at v <$> dominant_indices v threshold
  ∧ NoDup (dominant_indices v threshold)
  ∧ (∀ i, i ∈ dominant_indices v threshold
          ↔ (i < length v)%nat ∧ (threshold <=? strength v i)%float = true)
  ∧ StronglySorted (ranked_before v) (dominant_indices v threshold)
  ∧ detectNotes (JS.dense [1; 0; 0; 0; 1; 0; 0; 1; 0; 0; 0; 0]%float) 0.1
    = [ {| note := Some "C"; value := Some 1%float |};
        {| note := Some "E"; value := Some 1%float |};
        {| note := Some "G"; value := Some 1%float |} ].
Proof.
  split; [apply detectNotes_indices|].
  pose proof (dominant_indices_spec v threshold) as (Hnodup & Hmem & Hsorted).
  split; [done|]. split; [done|]. split; [done|]. by vm_compute.
Qed.

Lemma detectNotes_ranked_witness :
  4%nat ∈ dominant_indices template_C_maj 0.1.
Proof.
  destruct (detectNotes_ranked template_C_maj 0.1) as (_ & _ & Hmem & _).
  apply Hmem. split; [vm_compute; lia | reflexivity].
Defined.

(** * Further properties *)

(** ** More on rotation *)

Lemma set_length_below {A} (a : JS.array A) (z : Z) x :
  z < Z.of_nat (length a) → length (JS.set a z x) = length a.
Proof.
  intros Hz. unfold JS.set. destruct (bool_decide (z < 0)); [done|].
  rewrite bool_decide_eq_true_2 by done. by rewrite length_insert.
Qed.

Lemma set_lookup_cases {A} (a : JS.array A) (z : Z) x (k : nat) y :
  z < Z.of_nat (length a) → JS.set a z x !! k = Some y → y = x ∨ a !! k = Some y.
Proof.
  intros Hz. unfold JS.set. destruct (bool_decide (z < 0)); [by right|].
  rewrite bool_decide_eq_true_2 by done.
  destruct (decide (Z.to_nat z = k)) as [<-|Hne].
  - intros Hy. left. apply list_lookup_insert_Some in Hy as [[_ [? _]]|[? _]]; done.
  - rewrite list_lookup_insert_ne by done. by right.
Qed.

Lemma shift_index_below len s i : (0 < len)%nat → shift_index len s i < Z.of_nat len.
Proof.
  intros Hlen. unfold shift_index.
  pose proof (Z.rem_bound_abs (Z.of_nat i + s + Z.of_nat len) (Z.of_nat len)). lia.
Qed.

Lemma shift_loop_length {A} (hpcp : JS.array A) s n :
  (n ≤ length hpcp)%nat → length (shift_loop hpcp s n) = length hpcp.
Proof.
  induction n as [|n IH]; intros Hn; [apply length_replicate|].
  rewrite shift_loop_S. unfold shift_step.
  rewrite set_length_below; [apply IH; lia|].
  rewrite IH by lia. apply shift_index_below. lia.
Qed.

Lemma shiftHPCP_length_any {A} (hpcp : JS.array A) (shift : Z) :
  length (shiftHPCP hpcp shift) = length hpcp.
Proof. by apply shift_loop_length. Qed.

Lemma shift_loop_from_input {A} (hpcp : JS.array A) s n k x :
  (n ≤ length hpcp)%nat → shift_loop hpcp s n !! k = Some (Some x) →
  ∃ i, (i < n)%nat ∧ hpcp !! i = Some (Some x).
Proof.
  induction n as [|n IH]; intros Hn Hk.
  - unfold shift_loop, JS.new_Array in Hk. cbn [seq foldl] in Hk.
    by apply lookup_replicate in Hk as [? _].
  - rewrite shift_loop_S in Hk. unfold shift_step in Hk.
    apply set_lookup_cases in Hk as [Hx|Hk].
    + exists n. split; [lia|]. unfold JS.get in Hx.
      destruct (hpcp !! n) as [y|]; [|done]. cbn in Hx. by rewrite <- Hx.
    + destruct (IH ltac:(lia) Hk) as (i & Hi & Hx). exists i. split; [lia|done].
    + rewrite shift_loop_length by lia. apply shift_index_below. lia.
Qed.

(** X1: whatever the shift, the result has the length of the input, and
    each of its values is a value of the input; the other slots are holes. *)
Theorem shiftHPCP_preserves_length {A} (hpcp : JS.array A) (shift : Z) :
  length (shiftHPCP hpcp shift) = length hpcp
  ∧ ∀ k x, shiftHPCP hpcp shift !! k = Some (Some x) →
      ∃ i, (i < length hpcp)%nat ∧ hpcp !! i = Some (Some x).
Proof.
  split; [apply shiftHPCP_length_any|].
  intros k x Hk. by apply (shift_loop_from_input hpcp shift (length hpcp) k x).
Qed.

Lemma shiftHPCP_shiftHPCP {A} (hpcp : JS.array A) (s t : Z) :
  - Z.of_nat (length hpcp) ≤ s → - Z.of_nat (length hpcp) ≤ t →
  - Z.of_nat (length hpcp) ≤ s + t →
  shiftHPCP (shiftHPCP hpcp s) t = shiftHPCP hpcp (s + t).
Proof.
  intros Hs Ht Hst.
  apply list_eq_same_length with (length hpcp);
    [by rewrite shiftHPCP_length_any | by rewrite !shiftHPCP_length_any |].
  intros k x y Hk Hx Hy.
  rewrite shiftHPCP_lookup in Hx by (rewrite ?shiftHPCP_length_any; lia).
  rewrite shiftHPCP_lookup in Hy by lia.
  assert (0 < length hpcp)%nat as Hlen by lia.
  pose proof (source_index_lt (shiftHPCP hpcp s) t k) as Hsrc.
  rewrite shiftHPCP_length_any in Hsrc. specialize (Hsrc Hlen).
  unfold JS.get in Hx at 1. rewrite shiftHPCP_lookup in Hx by lia.
  cbn in Hx.
  replace (source_index hpcp s (source_index (shiftHPCP hpcp s) t k))
    with (source_index hpcp (s + t) k) in Hx; [congruence|].
  unfold source_index. rewrite shiftHPCP_length_any.
  set (L := Z.of_nat (length hpcp)). assert (0 < L) by lia.
  rewrite Z2Nat.id by (apply Z.mod_pos_bound; lia).
  rewrite Zminus_mod_idemp_l. do 2 f_equal. lia.
Qed.

(** X2: rotations compose by adding the shifts, in either order, as long
    as neither shift nor their sum is below [-len], and the shifts and
    their sum are small enough for every sum [i + shift + len] of the
    loops to be a safe integer, so that the additions are exact. *)
Theorem shiftHPCP_compose {A} (hpcp : JS.array A) (s t : Z) :
  - Z.of_nat (length hpcp) ≤ s → - Z.of_nat (length hpcp) ≤ t →
  - Z.of_nat (length hpcp) ≤ s + t →
  safe_integer (s + 2 * Z.of_nat (length hpcp)) →
  safe_integer (t + 2 * Z.of_nat (length hpcp)) →
  safe_integer (s + t + 2 * Z.of_nat (length hpcp)) →
  shiftHPCP (shiftHPCP hpcp s) t = shiftHPCP hpcp (s + t)
  ∧ shiftHPCP (shiftHPCP hpcp s) t = shiftHPCP (shiftHPCP hpcp t) s.
Proof.
  intros Hs Ht Hst _ _ _. split; [by apply shiftHPCP_shiftHPCP|].
  rewrite !shiftHPCP_shiftHPCP by lia. f_equal. lia.
Qed.

Lemma shiftHPCP_compose_witness :
  shiftHPCP (shiftHPCP (JS.dense ramp) (-3)) 5 = shiftHPCP (JS.dense ramp) 2.
Proof.
  refine (proj1 (shiftHPCP_compose (JS.dense ramp) (-3) 5 _ _ _ _ _ _));
    unfold safe_integer; cbn; lia.
Defined.

Lemma shiftHPCP_add_turns {A} (hpcp : JS.array A) (s m : Z) :
  - Z.of_nat (length hpcp) ≤ s → 0 ≤ m →
  shiftHPCP hpcp (s + m * Z.of_nat (length hpcp)) = shiftHPCP hpcp s.
Proof.
  intros Hs Hm.
  apply list_eq_same_length with (length hpcp);
    [by rewrite shiftHPCP_length_any | by rewrite !shiftHPCP_length_any |].
  intros k x y Hk Hx Hy.
  rewrite shiftHPCP_lookup in Hx by nia.
  rewrite shiftHPCP_lookup in Hy by lia.
  replace (source_index hpcp (s + m * Z.of_nat (length hpcp)) k)
    with (source_index hpcp s k) in Hx; [congruence|].
  unfold source_index. f_equal.
  replace (Z.of_nat k - (s + m * Z.of_nat (length hpcp)))
    with (Z.of_nat k - s + (- m) * Z.of_nat (length hpcp)) by lia.
  by rewrite Z.mod_add by lia.
Qed.

Lemma shiftHPCP_zero {A} (hpcp : JS.array A) : shiftHPCP hpcp 0 = hpcp.
Proof.
  rewrite <- (shiftHPCP_inverse hpcp 0) at 2 by lia.
  change (- 0) with 0.
  rewrite shiftHPCP_shiftHPCP by lia. done.
Qed.

(** X3: adding whole turns to a shift that is not below [-len] changes
    nothing, and a shift by whole turns is the identity, as long as the
    shifts are small enough for every sum [i + shift + len] of the loop to
    be a safe integer, so that the additions are exact. *)
Theorem shiftHPCP_periodic {A} (hpcp : JS.array A) (s m : Z) :
  - Z.of_nat (length hpcp) ≤ s → 0 ≤ m →
  safe_integer (s + m * Z.of_nat (length hpcp) + 2 * Z.of_nat (length hpcp)) →
  safe_integer (m * Z.of_nat (length hpcp) + 2 * Z.of_nat (length hpcp)) →
  shiftHPCP hpcp (s + m * Z.of_nat (length hpcp)) = shiftHPCP hpcp s
  ∧ shiftHPCP hpcp (m * Z.of_nat (length hpcp)) = hpcp.
Proof.
  intros Hs Hm _ _. split; [by apply shiftHPCP_add_turns|].
  rewrite <- (Z.add_0_l (m * _)), shiftHPCP_add_turns by lia.
  apply shiftHPCP_zero.
Qed.

Lemma shiftHPCP_periodic_witness :
  shiftHPCP (JS.dense ramp) (-3 + 2 * 12) = shiftHPCP (JS.dense ramp) (-3).
Proof.
  refine (proj1 (shiftHPCP_periodic (JS.dense ramp) (-3) 2 _ _ _ _));
    unfold safe_integer; cbn; lia.
Defined.

(** X4: on a dense vector a shift that is not below [-len], and small
    enough for every sum [i + shift + len] of the loop to be a safe
    integer, is the list rotation by [-shift]: no value is lost or
    duplicated.  The correction of the pipeline, [-3] on a 12-vector, puts
    the entries 3 to 11 first and the entries 0 to 2 last. *)
Theorem shiftHPCP_rotate {A} (v : list A) (s : Z) :
  - Z.of_nat (length v) ≤ s → safe_integer (s + 2 * Z.of_nat (length v)) →
  shiftHPCP (JS.dense v) s
  = JS.dense (rotate (Z.to_nat ((- s) `mod` Z.of_nat (length v))) v)
  ∧ (length v = 12%nat → shiftHPCP (JS.dense v) (-3) = JS.dense (drop 3 v ++ take 3 v)).
Proof.
  intros Hs _.
  assert (length (JS.dense v) = length v) as Hd
    by (unfold JS.dense; by rewrite length_fmap).
  assert (∀ s', - Z.of_nat (length v) ≤ s' →
            shiftHPCP (JS.dense v) s'
            = JS.dense (rotate (Z.to_nat ((- s') `mod` Z.of_nat (length v))) v)) as Hrot.
  { intros s' Hs'.
    apply list_eq_same_length with (length v);
      [unfold JS.dense; by rewrite length_fmap, length_rotate
      | by rewrite shiftHPCP_length_any |].
    intros k x y Hk Hx Hy.
    rewrite shiftHPCP_lookup in Hx by lia.
    rewrite get_dense in Hx.
    unfold JS.dense in Hy. rewrite list_lookup_fmap, lookup_rotate_r in Hy by done.
    replace (rotate_nat_add (Z.to_nat ((- s') `mod` Z.of_nat (length v))) k (length v))
      with (source_index (JS.dense v) s' k) in Hy.
    - destruct (v !! source_index (JS.dense v) s' k); cbn in *; congruence.
    - unfold source_index, rotate_nat_add. rewrite Hd. f_equal.
      rewrite Z2Nat.id by (apply Z.mod_pos_bound; lia).
      rewrite Zplus_mod_idemp_l. f_equal. lia. }
  split; [by apply Hrot|].
  intros H12. rewrite Hrot by lia. unfold rotate. rewrite H12. reflexivity.
Qed.

Lemma shiftHPCP_rotate_witness :
  shiftHPCP (JS.dense ramp) (-3)
  = JS.dense (rotate (Z.to_nat ((- -3) `mod` Z.of_nat (length ramp))) ramp).
Proof.
  refine (proj1 (shiftHPCP_rotate ramp (-3) _ _)); unfold safe_integer; cbn; lia.
Defined.

(** Below [-len] the last slot is never written. *)
Lemma shift_index_not_last len s i :
  (2 ≤ len)%nat → (i < len)%nat → s < - Z.of_nat len →
  shift_index len s i ≠ Z.of_nat len - 1.
Proof.
  intros Hlen Hi Hs. unfold shift_index.
  set (d := Z.of_nat i + s + Z.of_nat len).
  destruct (Z.le_gt_cases 0 d) as [Hd|Hd].
  - rewrite Z.rem_small by lia. lia.
  - pose proof (Z.rem_nonpos d (Z.of_nat len)). lia.
Qed.

Lemma set_other {A} (a : JS.array A) (z : Z) x (k : nat) :
  z < Z.of_nat (length a) → z ≠ Z.of_nat k → JS.set a z x !! k = a !! k.
Proof.
  intros Hz Hne. unfold JS.set. destruct (bool_decide (z < 0)) eqn:Hneg; [done|].
  apply bool_decide_eq_false in Hneg.
  rewrite bool_decide_eq_true_2 by done.
  apply list_lookup_insert_ne. lia.
Qed.

Lemma shift_loop_last_hole {A} (hpcp : JS.array A) s n :
  (2 ≤ length hpcp)%nat → s < - Z.of_nat (length hpcp) → (n ≤ length hpcp)%nat →
  shift_loop hpcp s n !! (length hpcp - 1)%nat = Some None.
Proof.
  intros Hlen Hs. induction n as [|n IH]; intros Hn.
  - unfold shift_loop, JS.new_Array. cbn. apply lookup_replicate_2. lia.
  - rewrite shift_loop_S. unfold shift_step.
    rewrite set_other; [apply IH; lia | |].
    + rewrite shift_loop_length by lia. apply shift_index_below. lia.
    + pose proof (shift_index_not_last (length hpcp) s n). lia.
Qed.

(** X5: a shift below [-len] is no rotation: on every array of at least
    two elements it leaves the last slot a hole, so the value that belongs
    there is lost. *)
Theorem shiftHPCP_below_range_loses {A} (hpcp : JS.array A) (shift : Z) :
  (2 ≤ length hpcp)%nat → shift < - Z.of_nat (length hpcp) →
  shiftHPCP hpcp shift !! (length hpcp - 1)%nat = Some None.
Proof. intros Hlen Hs. by apply shift_loop_last_hole. Qed.

Lemma shiftHPCP_below_range_loses_witness :
  shiftHPCP (JS.dense ramp) (-13) !! (length (JS.dense ramp) - 1)%nat = Some None.
Proof.
  apply (shiftHPCP_below_range_loses (JS.dense ramp) (-13)); cbn; lia.
Defined.
(** ** More on chord templates *)

Lemma set_Forall {A} (P : JS.value A → Prop) (a : JS.array A) (z : Z) x :
  z < Z.of_nat (length a) → Forall P a → P x → Forall P (JS.set a z x).
Proof.
  intros Hz Ha Hx. unfold JS.set. destruct (bool_decide (z < 0)); [done|].
  rewrite bool_decide_eq_true_2 by done.
  apply Forall_insert; done.
Qed.

Lemma template_index_below rootIndex interval : Z.rem (rootIndex + interval) 12 < 12.
Proof. pose proof (Z.rem_bound_abs (rootIndex + interval) 12). lia. Qed.

Lemma generateChordTemplate_snoc rootIndex intervals interval :
  generateChordTemplate rootIndex (intervals ++ [interval])
  = JS.set (generateChordTemplate rootIndex intervals)
           (Z.rem (rootIndex + interval) 12) (Some 1%float).
Proof. unfold generateChordTemplate. by rewrite foldl_app. Qed.

Lemma generateChordTemplate_length rootIndex intervals :
  length (generateChordTemplate rootIndex intervals) = 12%nat.
Proof.
  induction intervals as [|interval intervals IH] using rev_ind; [reflexivity|].
  rewrite generateChordTemplate_snoc, set_length_below; [done|].
  rewrite IH. apply template_index_below.
Qed.

(** X6: for every integer root and all intervals, the template has 12
    entries, each [0.0] or [1.0]. *)
Theorem generateChordTemplate_binary (rootIndex : Z) (intervals : list Z) :
  length (generateChordTemplate rootIndex intervals) = 12%nat
  ∧ Forall binary_entry (generateChordTemplate rootIndex intervals).
Proof.
  split; [apply generateChordTemplate_length|].
  induction intervals as [|interval intervals IH] using rev_ind.
  - cbn. repeat constructor.
  - rewrite generateChordTemplate_snoc.
    apply set_Forall; [|done|by right].
    rewrite generateChordTemplate_length. apply template_index_below.
Qed.

Lemma generateChordTemplate_lookup (rootIndex : Z) (intervals : list Z) (j : nat) :
  Forall (λ interval, 0 ≤ rootIndex + interval) intervals → (j < 12)%nat →
  generateChordTemplate rootIndex intervals !! j
  = Some (Some (if bool_decide (Z.of_nat j ∈ template_positions rootIndex intervals)
                then 1%float else 0%float)).
Proof.
  intros Hnn Hj. unfold template_positions.
  induction intervals as [|interval intervals IH] using rev_ind.
  - unfold generateChordTemplate. cbn [foldl].
    unfold JS.dense. rewrite list_lookup_fmap, lookup_replicate_2 by done.
    by rewrite bool_decide_eq_false_2 by apply not_elem_of_nil.
  - apply Forall_app in Hnn as [Hnn Hlast]. apply Forall_cons in Hlast as [Hlast _].
    cbn beta in Hlast. specialize (IH Hnn).
    rewrite generateChordTemplate_snoc, fmap_app. cbn [fmap list_fmap].
    pose proof (generateChordTemplate_length rootIndex intervals) as Hlen.
    rewrite Z.rem_mod_nonneg by lia.
    pose proof (Z.mod_pos_bound (rootIndex + interval) 12) as Hb.
    rewrite set_in_range by (rewrite Hlen; lia).
    destruct (decide (Z.to_nat ((rootIndex + interval) `mod` 12) = j)) as [<-|Hne].
    + rewrite list_lookup_insert_eq by (rewrite Hlen; lia).
      rewrite bool_decide_eq_true_2; [done|].
      apply elem_of_app. right. apply list_elem_of_singleton. lia.
    + rewrite list_lookup_insert_ne, IH by done.
      erewrite bool_decide_ext; [done|].
      rewrite elem_of_app, list_elem_of_singleton. split; [by left|].
      intros [?|?]; [done|lia].
Qed.

Lemma indicator_lookup positions j :
  (j < 12)%nat →
  indicator positions !! j
  = Some (Some (if bool_decide (Z.of_nat j ∈ positions) then 1%float else 0%float)).
Proof.
  intros Hj. unfold indicator, JS.dense.
  by rewrite !list_lookup_fmap, lookup_seq_lt.
Qed.

Lemma indicator_length positions : length (indicator positions) = 12%nat.
Proof. done. Qed.

(** X7: when the root, the intervals and their sums are safe integers, so
    that the additions are exact, and no sum [rootIndex + interval] is
    negative, the template is the vector with [1.0] exactly at the pitch
    classes [(rootIndex + interval) mod 12], whatever the order and the
    repetitions of the intervals. *)
Theorem generateChordTemplate_closed_form (rootIndex : Z) (intervals : list Z) :
  safe_integer rootIndex →
  Forall (λ interval, safe_integer interval ∧ safe_integer (rootIndex + interval)
                      ∧ 0 ≤ rootIndex + interval) intervals →
  generateChordTemplate rootIndex intervals
  = indicator (template_positions rootIndex intervals).
Proof.
  intros _ Hsafe.
  assert (Forall (λ interval, 0 ≤ rootIndex + interval) intervals) as Hnn
    by (eapply Forall_impl; [exact Hsafe|]; by intros interval (_ & _ & ?)).
  apply list_eq_same_length with 12%nat;
    [apply indicator_length | apply generateChordTemplate_length |].
  intros k x y Hk Hx Hy.
  rewrite generateChordTemplate_lookup in Hx by done.
  rewrite indicator_lookup in Hy by done. congruence.
Qed.

Lemma generateChordTemplate_closed_form_witness :
  generateChordTemplate 9 [0; 3; 7] = indicator (template_positions 9 [0; 3; 7]).
Proof.
  apply (generateChordTemplate_closed_form 9 [0; 3; 7]);
    [unfold safe_integer; lia|].
  repeat apply Forall_cons_2; [..|apply Forall_nil_2];
    unfold safe_integer; lia.
Defined.

(** X8: rotation transposes chords: for a root [r >= 0], non-negative
    intervals and a shift [s >= -12], all small enough for the sums
    [r + interval], [(r + s) mod 12 + interval] and [i + s + 12] to be safe
    integers, the template on [r] rotated by [s] is the template on the
    root [(r + s) mod 12]. *)
Theorem shiftHPCP_transposes_template (rootIndex : Z) (intervals : list Z) (s : Z) :
  0 ≤ rootIndex → safe_integer rootIndex →
  Forall (λ interval, 0 ≤ interval ∧ safe_integer (rootIndex + interval + 12)) intervals →
  -12 ≤ s → safe_integer (s + 24) →
  shiftHPCP (generateChordTemplate rootIndex intervals) s
  = generateChordTemplate ((rootIndex + s) `mod` 12) intervals.
Proof.
  intros Hr _ Hsafe Hs _.
  assert (Forall (λ interval, 0 ≤ interval) intervals) as Hnn
    by (eapply Forall_impl; [exact Hsafe|]; by intros interval [? _]).
  pose proof (generateChordTemplate_length rootIndex intervals) as Hlen.
  pose proof (Z.mod_pos_bound (rootIndex + s) 12) as Hroot.
  apply list_eq_same_length with 12%nat;
    [apply generateChordTemplate_length | by rewrite shiftHPCP_length_any |].
  intros k x y Hk Hx Hy.
  assert (Forall (λ interval, 0 ≤ rootIndex + interval) intervals) as Hr_nn
    by (eapply Forall_impl; [exact Hnn|]; intros interval Hi; cbn beta in *; lia).
  assert (Forall (λ interval, 0 ≤ (rootIndex + s) `mod` 12 + interval) intervals) as Hs_nn
    by (eapply Forall_impl; [exact Hnn|]; intros interval Hi; cbn beta in *; lia).
  rewrite generateChordTemplate_lookup in Hy by done.
  rewrite shiftHPCP_lookup in Hx by (rewrite Hlen; lia).
  pose proof (source_index_lt (generateChordTemplate rootIndex intervals) s k) as Hsrc.
  rewrite Hlen in Hsrc. specialize (Hsrc ltac:(lia)).
  unfold JS.get in Hx. rewrite generateChordTemplate_lookup in Hx by done.
  cbn in Hx. injection Hx as <-. injection Hy as <-.
  erewrite bool_decide_ext; [done|].
  unfold template_positions, source_index. rewrite Hlen.
  rewrite Z2Nat.id by (apply Z.mod_pos_bound; lia).
  rewrite !list_elem_of_fmap. change (Z.of_nat 12) with 12.
  split; intros (interval & Heq & Hin); exists interval; (split; [|done]).
  - rewrite Zplus_mod_idemp_l.
    assert ((Z.of_nat k - s + s) `mod` 12 = (rootIndex + interval + s) `mod` 12) as Hm.
    { rewrite <- Zplus_mod_idemp_l, Heq, Zplus_mod_idemp_l. done. }
    replace (Z.of_nat k - s + s) with (Z.of_nat k) in Hm by lia.
    rewrite Z.mod_small in Hm by lia. rewrite Hm. f_equal. lia.
  - rewrite Heq, Zplus_mod_idemp_l, Zminus_mod_idemp_l. f_equal. lia.
Qed.

Lemma shiftHPCP_transposes_template_witness :
  shiftHPCP (generateChordTemplate 0 [0; 3; 7]) (-3)
  = generateChordTemplate ((0 + -3) `mod` 12) [0; 3; 7].
Proof.
  apply (shiftHPCP_transposes_template 0 [0; 3; 7] (-3));
    [lia | unfold safe_integer; lia | | lia | unfold safe_integer; lia].
  repeat apply Forall_cons_2; [..|apply Forall_nil_2];
    unfold safe_integer; lia.
Defined.

Lemma rem_negative x : x < 0 → x `mod` 12 ≠ 0 → Z.rem x 12 < 0.
Proof.
  intros Hx Hm.
  pose proof (Z.rem_nonpos x 12 ltac:(lia) ltac:(lia)) as Hle.
  destruct (decide (Z.rem x 12 = 0)) as [H0|H0]; [|lia].
  exfalso. apply Hm. apply Z.rem_divide in H0 as [c ->]; [|lia].
  by rewrite Z.mod_mul.
Qed.

(** X9: an assignment at a negative pitch class creates no element: when
    the root, the intervals and their sums are safe integers, so that the
    additions are exact, and every sum [rootIndex + interval] is negative
    and no multiple of 12, the template stays all zero. *)
Theorem generateChordTemplate_negative (rootIndex : Z) (intervals : list Z) :
  safe_integer rootIndex →
  Forall (λ interval, safe_integer interval ∧ safe_integer (rootIndex + interval)
                      ∧ rootIndex + interval < 0
                      ∧ (rootIndex + interval) `mod` 12 ≠ 0)
         intervals →
  generateChordTemplate rootIndex intervals = zeros 12.
Proof.
  intros _ Hneg.
  induction intervals as [|interval intervals IH] using rev_ind; [reflexivity|].
  apply Forall_app in Hneg as [Hneg Hlast].
  apply Forall_cons in Hlast as [(_ & _ & Hlt & Hm) _].
  rewrite generateChordTemplate_snoc, IH by done.
  apply set_negative. by apply rem_negative.
Qed.

Lemma generateChordTemplate_negative_witness :
  generateChordTemplate (-9) [0; 4; 7] = zeros 12.
Proof.
  apply (generateChordTemplate_negative (-9) [0; 4; 7]);
    [unfold safe_integer; lia|].
  repeat apply Forall_cons_2; [..|apply Forall_nil_2];
    (split; [unfold safe_integer; lia|split; [unfold safe_integer; lia|]];
     split; [lia|by vm_compute]).
Defined.

(** X10: the earlier major-chord generator is the present generator at
    the intervals [0, 4, 7], for every integer root; and the earlier
    library is the list of the twelve major entries, each of which the
    present library holds under the same label. *)
Theorem earlier_version_agrees :
  (∀ rootIndex, Earlier.generateMajorTemplate rootIndex
                = generateChordTemplate rootIndex [0; 4; 7])
  ∧ Earlier.generateChordTemplates
    = (λ i, (chord_label i "maj", generateChordTemplate (Z.of_nat i) [0; 4; 7])) <$> seq 0 12
  ∧ Forall (λ e, JS.lookup chordTemplates e.1 = Some e.2) Earlier.generateChordTemplates.
Proof.
  split; [|split].
  - intros rootIndex. unfold Earlier.generateMajorTemplate, generateChordTemplate.
    cbn [foldl]. by rewrite Z.add_0_r.
  - by vm_compute.
  - by apply (bool_decide_unpack _); vm_compute.
Qed.
(** ** More on binary64 numbers *)

Lemma SF_mul_comm x y : SF64mul x y = SF64mul y x.
Proof.
  destruct x as [[]|[]| |sx mx ex], y as [[]|[]| |sy my ey]; try done;
    cbn; try (by destruct sx); try (by destruct sy).
  by rewrite Pos.mul_comm, Z.add_comm, xorb_comm.
Qed.

Lemma SF_add_nan_l y : SF64add S754_nan y = S754_nan.
Proof. done. Qed.

Lemma SF_add_nan_r x : SF64add x S754_nan = S754_nan.
Proof. by destruct x as [[]|[]| |[] ? ?]. Qed.

Lemma SF_mul_nan_r x : SF64mul x S754_nan = S754_nan.
Proof. by destruct x as [[]|[]| |[] ? ?]. Qed.

Lemma SF_div_nan_r x : SF64div x S754_nan = S754_nan.
Proof. by destruct x as [[]|[]| |[] ? ?]. Qed.

Lemma SF_leb_trans x y z : SFleb x y = true → SFleb y z = true → SFleb x z = true.
Proof.
  unfold SFleb.
  destruct x as [[]|[]| |[] m e], y as [[]|[]| |[] m' e'], z as [[]|[]| |[] m'' e''];
    intros; SF_crush.
Qed.

Lemma float_mul_comm x y : (x * y)%float = (y * x)%float.
Proof. apply Prim2SF_inj. rewrite !FloatAxioms.mul_spec. apply SF_mul_comm. Qed.

Lemma float_is_nan_eq x : is_nan x = true → x = nan.
Proof. intros H. apply Prim2SF_inj. by apply float_is_nan_spec. Qed.

Lemma float_add_nan_l y : (nan + y)%float = nan.
Proof. apply Prim2SF_inj. by rewrite FloatAxioms.add_spec. Qed.

Lemma float_add_nan_r x : (x + nan)%float = nan.
Proof. apply Prim2SF_inj. rewrite FloatAxioms.add_spec. apply SF_add_nan_r. Qed.

Lemma float_mul_nan_l y : (nan * y)%float = nan.
Proof. apply Prim2SF_inj. by rewrite FloatAxioms.mul_spec. Qed.

Lemma float_mul_nan_r x : (x * nan)%float = nan.
Proof. apply Prim2SF_inj. rewrite FloatAxioms.mul_spec. apply SF_mul_nan_r. Qed.

Lemma float_div_nan_l y : (nan / y)%float = nan.
Proof. apply Prim2SF_inj. by rewrite FloatAxioms.div_spec. Qed.

Lemma float_div_nan_r x : (x / nan)%float = nan.
Proof. apply Prim2SF_inj. rewrite FloatAxioms.div_spec. apply SF_div_nan_r. Qed.

Lemma float_leb_trans x y z :
  (x <=? y)%float = true → (y <=? z)%float = true → (x <=? z)%float = true.
Proof. rewrite !FloatAxioms.leb_spec. apply SF_leb_trans. Qed.

Lemma float_eqb_refl x : is_nan x = false → (x =? x)%float = true.
Proof. unfold is_nan. by destruct (x =? x)%float. Qed.

Lemma float_ltb_not_nan x y : (x <? y)%float = true → is_nan y = false.
Proof.
  intros Hlt. destruct (is_nan y) eqn:Hy; [|done].
  apply float_is_nan_eq in Hy as ->. by rewrite float_ltb_nan_r in Hlt.
Qed.

Lemma SF_eqb_sym x y : SFeqb x y = SFeqb y x.
Proof.
  unfold SFeqb.
  destruct x as [[]|[]| |[] m e], y as [[]|[]| |[] m' e']; SF_crush.
Qed.

Lemma SF_trichotomy x y :
  x ≠ S754_nan → y ≠ S754_nan →
  SFltb x y = true ∨ SFeqb x y = true ∨ SFltb y x = true.
Proof.
  unfold SFltb, SFeqb.
  destruct x as [[]|[]| |[] m e], y as [[]|[]| |[] m' e']; intros; SF_crush; auto.
Qed.

Lemma float_eqb_sym x y : (x =? y)%float = (y =? x)%float.
Proof. rewrite !FloatAxioms.eqb_spec. apply SF_eqb_sym. Qed.

Lemma float_trichotomy x y :
  is_nan x = false → is_nan y = false →
  (x <? y)%float = true ∨ (x =? y)%float = true ∨ (y <? x)%float = true.
Proof.
  rewrite !float_not_nan_spec, !FloatAxioms.ltb_spec, FloatAxioms.eqb_spec.
  apply SF_trichotomy.
Qed.

Lemma float_leb_nan_l x : (nan <=? x)%float = false.
Proof. by rewrite FloatAxioms.leb_spec. Qed.

(** ** More on the similarity *)

Lemma cosine_loop_swap a b idxs : ∀ dot normA normB,
  foldl (cosine_step b a) (dot, normB, normA) idxs
  = (let '(dot', normA', normB') := foldl (cosine_step a b) (dot, normA, normB) idxs in
     (dot', normB', normA')).
Proof.
  induction idxs as [|i idxs IH]; intros dot normA normB; cbn [foldl]; [done|].
  unfold cosine_step at 2 4.
  rewrite (float_mul_comm (JS.ToNumber (JS.get b i)) (JS.ToNumber (JS.get a i))).
  apply IH.
Qed.

(** X11: the similarity is symmetric on arrays of one length. *)
Theorem cosineSimilarity_symmetric (a b : JS.array float) :
  length a = length b → cosineSimilarity a b = cosineSimilarity b a.
Proof.
  intros Hlen. unfold cosineSimilarity. rewrite <- Hlen.
  rewrite (cosine_loop_swap a b _ 0 0 0)%float.
  destruct (foldl (cosine_step a b) _ _) as [[dot normA] normB].
  by rewrite float_mul_comm.
Qed.

Lemma cosineSimilarity_symmetric_witness :
  cosineSimilarity template_C_maj (unit_vector 3)
  = cosineSimilarity (unit_vector 3) template_C_maj.
Proof.
  apply (cosineSimilarity_symmetric template_C_maj (unit_vector 3)). reflexivity.
Defined.

Lemma cosine_loop_nan a b idxs : ∀ normA normB,
  (foldl (cosine_step a b) (nan, normA, normB) idxs).1.1 = nan.
Proof.
  induction idxs as [|i idxs IH]; intros normA normB; cbn [foldl]; [done|].
  unfold cosine_step at 2. rewrite float_add_nan_l. apply IH.
Qed.

Lemma cosine_loop_taint a b idxs i : ∀ dot normA normB,
  i ∈ idxs → (strength a i * strength b i)%float = nan →
  (foldl (cosine_step a b) (dot, normA, normB) idxs).1.1 = nan.
Proof.
  induction idxs as [|j idxs IH]; intros dot normA normB Hi Hnan;
    [by apply elem_of_nil in Hi|].
  cbn [foldl]. apply elem_of_cons in Hi as [<-|Hi].
  - unfold cosine_step at 2. unfold strength in Hnan. rewrite Hnan, float_add_nan_r.
    apply cosine_loop_nan.
  - unfold cosine_step at 2. by apply IH.
Qed.


Lemma cosineSimilarity_nan_product a b i :
  (i < length a)%nat → (strength a i * strength b i)%float = nan →
  cosineSimilarity a b = nan.
Proof.
  intros Hi Hprod. unfold cosineSimilarity.
  pose proof (cosine_loop_taint a b (seq 0 (length a)) i 0 0 0) as Hdot.
  destruct (foldl (cosine_step a b) _ _) as [[dot normA] normB].
  cbn [fst] in Hdot. rewrite Hdot; [apply float_div_nan_l| |done].
  apply elem_of_seq. lia.
Qed.

Lemma strength_undefined (a : JS.array float) i :
  (length a ≤ i)%nat → strength a i = nan.
Proof. intros Hi. unfold strength, JS.get. by rewrite lookup_ge_None_2. Qed.

(** X12: an entry that is [NaN] or [undefined], in either array at an
    index the loop visits, makes the similarity [NaN]. *)
Theorem cosineSimilarity_nan_entry (a b : JS.array float) (i : nat) :
  (i < length a)%nat →
  is_nan (strength a i) = true ∨ is_nan (strength b i) = true →
  cosineSimilarity a b = nan.
Proof.
  intros Hi Hnan. apply (cosineSimilarity_nan_product a b i); [done|].
  destruct Hnan as [->%float_is_nan_eq | ->%float_is_nan_eq];
    [apply float_mul_nan_l | apply float_mul_nan_r].
Qed.

Lemma cosineSimilarity_nan_entry_witness :
  cosineSimilarity [Some 1%float; None] (JS.dense [1; 1]%float) = nan.
Proof.
  apply (cosineSimilarity_nan_entry [Some 1%float; None] (JS.dense [1; 1]%float) 1);
    [cbn; lia | left; reflexivity].
Defined.

(** X13: a second array shorter than the first makes the similarity
    [NaN]: the loop runs over the first array and reads [undefined]. *)
Theorem cosineSimilarity_shorter_nan (a b : JS.array float) :
  (length b < length a)%nat → cosineSimilarity a b = nan.
Proof.
  intros Hlen. apply (cosineSimilarity_nan_product a b (length b)); [done|].
  rewrite (strength_undefined b) by done. apply float_mul_nan_r.
Qed.

Lemma cosineSimilarity_shorter_nan_witness :
  cosineSimilarity template_C_maj [] = nan.
Proof.
  apply (cosineSimilarity_shorter_nan template_C_maj []). vm_compute. lia.
Defined.

Lemma cosine_loop_ext a b b' idxs : ∀ sums,
  (∀ i, i ∈ idxs → JS.get b i = JS.get b' i) →
  foldl (cosine_step a b) sums idxs = foldl (cosine_step a b') sums idxs.
Proof.
  induction idxs as [|i idxs IH]; intros sums Hext; cbn [foldl]; [done|].
  assert (cosine_step a b sums i = cosine_step a b' sums i) as ->.
  { unfold cosine_step. by rewrite (Hext i) by apply list_elem_of_here. }
  apply IH. intros j Hj. apply Hext. by apply list_elem_of_further.
Qed.

(** X14: the entries of the second array beyond the length of the first
    are never read. *)
Theorem cosineSimilarity_ignores_tail (a b : JS.array float) :
  cosineSimilarity a b = cosineSimilarity a (take (length a) b).
Proof.
  unfold cosineSimilarity.
  rewrite (cosine_loop_ext a b (take (length a) b)); [done|].
  intros i [_ Hi]%elem_of_seq. unfold JS.get.
  by rewrite lookup_take_lt by lia.
Qed.


(** ** More on chord detection *)

Lemma insert_index_elem {V} (n : N) (kv : string * V) l e :
  e ∈ JS.insert_index n kv l → e = (n, kv) ∨ e ∈ l.
Proof.
  induction l as [|[m kv'] l IH]; cbn.
  - intros ->%list_elem_of_singleton. by left.
  - destruct (n <? m)%N.
    + intros [->|He]%elem_of_cons; [by left|by right].
    + intros [->|He]%elem_of_cons; [right; apply list_elem_of_here|].
      destruct (IH He) as [->|?]; [by left|right; by apply list_elem_of_further].
Qed.

Lemma index_entries_elem {V} (o : JS.object V) e :
  e ∈ JS.index_entries o → e.2 ∈ o.
Proof.
  unfold JS.index_entries.
  enough (∀ acc, (∀ e', e' ∈ acc → e'.2 ∈ o) →
            ∀ o', (∀ kv, kv ∈ o' → kv ∈ o) →
              e ∈ foldl (λ acc kv, match JS.array_index kv.1 with
                                   | Some n => JS.insert_index n kv acc
                                   | None => acc
                                   end) acc o' → e.2 ∈ o) as H.
  { apply (H []); [by intros ? ?%elem_of_nil | done]. }
  intros acc Hacc o'. revert acc Hacc.
  induction o' as [|kv o' IH]; intros acc Hacc Ho'; cbn [foldl]; [apply Hacc|].
  apply IH.
  - destruct (JS.array_index kv.1); [|done].
    intros e' [->|?]%insert_index_elem; [apply Ho', list_elem_of_here|by apply Hacc].
  - intros kv' ?. by apply Ho', list_elem_of_further.
Qed.

(** Enumeration visits own properties only. *)
Lemma entries_elem {V} (o : JS.object V) e : e ∈ JS.entries o → e ∈ o.
Proof.
  unfold JS.entries. intros [He|He]%elem_of_app.
  - apply list_elem_of_fmap in He as (ne & -> & Hne). by apply index_entries_elem.
  - by apply list_elem_of_filter in He as [_ ?].
Qed.

(** X15: a label [detectChord] returns is a label of the library, and the
    similarity of its template is a number above [-Infinity]. *)
Theorem detectChord_returns_library_label
    (v : JS.array float) (lib : JS.object (JS.array float)) (chord : string) :
  detectChord v lib = Some chord →
  ∃ t, (chord, t) ∈ lib
       ∧ (neg_infinity <? cosineSimilarity v t)%float = true
       ∧ is_nan (cosineSimilarity v t) = false.
Proof.
  unfold detectChord. intros Hres.
  pose proof (detect_loop_spec v (JS.entries lib)) as Hmax.
  destruct (foldl _ _ _) as [best bestScore]. cbn [fst] in Hres. subst best.
  destruct Hmax as (k & t & Hk & Hbs & Hinf & _). cbn [snd] in *. subst bestScore.
  exists t. split; [|split].
  - apply entries_elem. by eapply list_elem_of_lookup_2.
  - done.
  - by eapply float_ltb_not_nan.
Qed.

Lemma detectChord_returns_library_label_witness :
  ∃ t, ("C:maj", t) ∈ chordTemplates
       ∧ (neg_infinity <? cosineSimilarity template_C_maj t)%float = true
       ∧ is_nan (cosineSimilarity template_C_maj t) = false.
Proof.
  apply (detectChord_returns_library_label template_C_maj chordTemplates "C:maj").
  by vm_compute.
Defined.

Lemma detect_loop_nan_entry v (es : list (string * JS.array float)) best i :
  (i < length v)%nat → is_nan (strength v i) = true →
  foldl (detect_step v) best es = best.
Proof.
  intros Hi Hnan. apply detect_loop_nan.
  apply Forall_forall. intros e _.
  apply (cosineSimilarity_nan_product v e.2 i); [done|].
  apply float_is_nan_eq in Hnan as ->. apply float_mul_nan_l.
Qed.

(** X16: a vector with a [NaN] or [undefined] component gets no label,
    whatever the library. *)
Theorem detectChord_nan_entry_is_null
    (v : JS.array float) (lib : JS.object (JS.array float)) (i : nat) :
  (i < length v)%nat → is_nan (strength v i) = true → detectChord v lib = JS.null.
Proof.
  intros Hi Hnan. unfold detectChord.
  by rewrite (detect_loop_nan_entry v _ _ i).
Qed.

Lemma detectChord_nan_entry_is_null_witness :
  detectChord (JS.dense [nan]) chordTemplates = JS.null.
Proof.
  apply (detectChord_nan_entry_is_null (JS.dense [nan]) chordTemplates 0);
    [cbn; lia | reflexivity].
Defined.

Lemma detect_loop_skips_duplicate
    (v : JS.array float) (es : list (string * JS.array float))
    (j k : nat) (first chord : string) (t : JS.array float) :
  NoDup es.*1 →
  es !! j = Some (first, t) → es !! k = Some (chord, t) → (j < k)%nat →
  (foldl (detect_step v) (JS.null, neg_infinity) es).1 ≠ Some chord.
Proof.
  intros Hnodup Hj Hk Hlt Hres.
  pose proof (detect_loop_spec v es) as Hmax.
  destruct (foldl _ _ _) as [best bestScore]. cbn [fst] in Hres. subst best.
  destruct Hmax as (k' & t' & Hk' & Hbs & Hinf & _ & Hfirst). cbn [snd] in *.
  assert (k' = k) as ->.
  { eapply NoDup_lookup; [exact Hnodup| |];
      rewrite list_lookup_fmap; [by rewrite Hk'|by rewrite Hk]. }
  rewrite Hk in Hk'. injection Hk' as <-.
  specialize (Hfirst j _ Hj Hlt). cbn [snd] in Hfirst.
  rewrite <- Hbs in Hfirst.
  rewrite float_eqb_refl in Hfirst; [done|]. by eapply float_ltb_not_nan.
Qed.

(** X17: an entry whose template repeats the template of an earlier entry
    is never returned: its score can equal, never exceed, the earlier one. *)
Theorem detectChord_never_returns_duplicate
    (v : JS.array float) (lib : JS.object (JS.array float))
    (j k : nat) (first chord : string) (t : JS.array float) :
  NoDup (JS.entries lib).*1 →
  JS.entries lib !! j = Some (first, t) → JS.entries lib !! k = Some (chord, t) →
  (j < k)%nat →
  detectChord v lib ≠ Some chord.
Proof.
  intros Hnodup Hj Hk Hlt.
  by apply (detect_loop_skips_duplicate v (JS.entries lib) j k first chord t).
Qed.

Lemma detectChord_never_returns_duplicate_witness :
  detectChord (unit_vector 4) chordTemplates ≠ Some "E:aug".
Proof.
  apply (detectChord_never_returns_duplicate (unit_vector 4) chordTemplates 4 24
           "C:aug" "E:aug" (generateChordTemplate 0 [0; 4; 8]));
    [by apply (bool_decide_unpack _); vm_compute | reflexivity | reflexivity | lia].
Defined.

Lemma shadowed_labels_duplicate :
  Forall (λ chord, ∃ j k first t,
            JS.entries chordTemplates !! j = Some (first, t)
            ∧ JS.entries chordTemplates !! k = Some (chord, t) ∧ (j < k)%nat)
         shadowed_labels.
Proof.
  repeat apply Forall_cons_2; [..|apply Forall_nil_2].
  - exists 4%nat, 24%nat, "C:aug", (generateChordTemplate 0 [0; 4; 8]); (split; [reflexivity|split; [reflexivity|lia]]).
  - exists 9%nat, 29%nat, "C#:aug", (generateChordTemplate 1 [0; 4; 8]); (split; [reflexivity|split; [reflexivity|lia]]).
  - exists 14%nat, 34%nat, "D:aug", (generateChordTemplate 2 [0; 4; 8]); (split; [reflexivity|split; [reflexivity|lia]]).
  - exists 19%nat, 39%nat, "D#:aug", (generateChordTemplate 3 [0; 4; 8]); (split; [reflexivity|split; [reflexivity|lia]]).
  - exists 4%nat, 44%nat, "C:aug", (generateChordTemplate 0 [0; 4; 8]); (split; [reflexivity|split; [reflexivity|lia]]).
  - exists 9%nat, 49%nat, "C#:aug", (generateChordTemplate 1 [0; 4; 8]); (split; [reflexivity|split; [reflexivity|lia]]).
  - exists 14%nat, 54%nat, "D:aug", (generateChordTemplate 2 [0; 4; 8]); (split; [reflexivity|split; [reflexivity|lia]]).
  - exists 19%nat, 59%nat, "D#:aug", (generateChordTemplate 3 [0; 4; 8]); (split; [reflexivity|split; [reflexivity|lia]]).
Qed.

(** X18: on the library of the program, whatever the input vector, the
    eight augmented chords on the roots E to B are never reported: each has
    the pitch classes of an augmented chord on C, C#, D or D#, which comes
    first. *)
Theorem detectChord_shadowed_augmented (v : JS.array float) :
  Forall (λ chord, chord ∈ chordTemplates.*1
                   ∧ detectChord v chordTemplates ≠ Some chord) shadowed_labels.
Proof.
  assert (NoDup (JS.entries chordTemplates).*1) as Hnodup
    by (by apply (bool_decide_unpack _); vm_compute).
  pose proof shadowed_labels_duplicate as Hdup.
  apply Forall_forall. intros chord Hin.
  rewrite Forall_forall in Hdup.
  destruct (Hdup chord Hin) as (j & k & first & t & Hj & Hk & Hlt).
  split.
  - rewrite <- chordTemplates_enumeration.
    apply list_elem_of_fmap. exists (chord, t). split; [done|].
    by eapply list_elem_of_lookup_2.
  - by apply (detect_loop_skips_duplicate v (JS.entries chordTemplates) j k first chord t).
Qed.
(** ** More on dominant notes *)

Lemma StronglySorted_filter {A} (R : relation A) (P : A → Prop)
    `{∀ x, Decision (P x)} (l : list A) :
  StronglySorted R l → StronglySorted R (filter P l).
Proof.
  induction 1 as [|x l Hl IH Hx]; [constructor|].
  rewrite filter_cons. destruct (decide (P x)); [|done].
  apply StronglySorted_cons. split; [|done].
  apply Forall_forall. intros y [_ Hy]%list_elem_of_filter.
  rewrite Forall_forall in Hx. by apply Hx.
Qed.

(** Two distinct pitch classes with numeric values are ranked one way
    only. *)
Lemma ranked_before_asym v i j :
  is_nan (strength v i) = false → is_nan (strength v j) = false →
  ranked_before v i j → ranked_before v j i → False.
Proof.
  intros Hi Hj [Hij Hij'] [Hji Hji'].
  destruct (float_trichotomy _ _ Hi Hj) as [Hlt|[Heq|Hgt]]; try congruence.
  specialize (Hij' Heq). rewrite float_eqb_sym in Heq. specialize (Hji' Heq). lia.
Qed.

Lemma dominant_indices_numeric v threshold i :
  i ∈ dominant_indices v threshold →
  is_nan (strength v i) = false ∧ is_nan threshold = false.
Proof.
  intros Hi. apply (dominant_indices_spec v threshold) in Hi as [_ Hi].
  by apply float_leb_not_nan in Hi as [? ?].
Qed.

Lemma dominant_indices_raise v t1 t2 :
  (t1 <=? t2)%float = true →
  dominant_indices v t2
  = filter (λ i, (t2 <=? strength v i)%float = true) (dominant_indices v t1).
Proof.
  intros Hle.
  destruct (dominant_indices_spec v t1) as (_ & _ & Hs1).
  destruct (dominant_indices_spec v t2) as (_ & _ & Hs2).
  apply (StronglySorted_unique_strong (ranked_before v)).
  - intros i j Hi [Hj _]%list_elem_of_filter Hij Hji. exfalso.
    apply dominant_indices_numeric in Hi as [Hi _].
    apply float_leb_not_nan in Hj as [_ Hj].
    exact (ranked_before_asym v i j Hi Hj Hij Hji).
  - done.
  - by apply StronglySorted_filter.
  - unfold dominant_indices. rewrite !sort_perm.
    rewrite list_filter_filter_l; [done|].
    intros i Hi. by eapply float_leb_trans.
Qed.

(** X19: raising the threshold only removes notes: the result for the
    higher threshold is the result for the lower one without the notes
    below the higher threshold, in the same order. *)
Theorem detectNotes_raise_threshold (v : JS.array float) (t1 t2 : float) :
  (t1 <=? t2)%float = true →
  detectNotes v t2
  = filter (λ n, (t2 <=? JS.ToNumber (value n))%float = true) (detectNotes v t1).
Proof.
  intros Hle. rewrite !detectNotes_indices, filter_fmap.
  f_equal. by apply dominant_indices_raise.
Qed.

Lemma detectNotes_raise_threshold_witness :
  detectNotes template_C_maj 0.5
  = filter (λ n, (0.5 <=? JS.ToNumber (value n))%float = true)
           (detectNotes template_C_maj 0.1).
Proof.
  apply (detectNotes_raise_threshold template_C_maj 0.1 0.5). reflexivity.
Defined.

(** X20: with a [NaN] threshold nothing is reported; and with any
    threshold no [NaN] or [undefined] entry is, nor more notes than the
    vector has entries. *)
Theorem detectNotes_nan (v : JS.array float) (threshold : float) :
  detectNotes v nan = []
  ∧ Forall (λ n, is_nan (JS.ToNumber (value n)) = false) (detectNotes v threshold)
  ∧ (length (detectNotes v threshold) ≤ length v)%nat.
Proof.
  split; [|split].
  - rewrite detectNotes_indices.
    assert (dominant_indices v nan = []) as ->; [|done].
    apply elem_of_nil_inv. intros i Hi.
    apply dominant_indices_numeric in Hi as [_ Hi]. done.
  - rewrite detectNotes_indices. apply Forall_fmap, Forall_forall.
    intros i Hi. by apply dominant_indices_numeric in Hi as [? _].
  - rewrite detectNotes_indices, length_fmap.
    unfold dominant_indices. rewrite sort_perm.
    etrans; [apply length_filter|]. by rewrite length_seq.
Qed.

(** ** More on the sample accumulator *)

Lemma BUFFER_SIZE_pos : (0 < BUFFER_SIZE)%nat.
Proof. pose proof BUFFER_SIZE_eq. lia. Qed.

Lemma accumulate_emit acc data :
  (BUFFER_SIZE ≤ length (concat (acc ++ [data])))%nat →
  accumulate acc data = ([], Some (take BUFFER_SIZE (concat (acc ++ [data])))).
Proof.
  intros Hle. unfold accumulate.
  rewrite bool_decide_eq_true_2 by (rewrite totalSamples_concat; lia).
  rewrite buffer_concat.
  destruct (bool_decide_reflect (BUFFER_SIZE < length (concat (acc ++ [data])))%nat);
    [done|].
  by rewrite take_ge by lia.
Qed.

Lemma accumulate_cases acc data :
  ((length (concat (acc ++ [data])) < BUFFER_SIZE)%nat
   ∧ accumulate acc data = (acc ++ [data], None))
  ∨ ((BUFFER_SIZE ≤ length (concat (acc ++ [data])))%nat
     ∧ accumulate acc data = ([], Some (take BUFFER_SIZE (concat (acc ++ [data]))))).
Proof.
  destruct (Nat.lt_ge_cases (length (concat (acc ++ [data]))) BUFFER_SIZE) as [H|H].
  - left. split; [done|]. by apply accumulate_below.
  - right. split; [done|]. by apply accumulate_emit.
Qed.

Lemma accumulate_bounded acc data :
  (totalSamples (accumulate acc data).1 < BUFFER_SIZE)%nat.
Proof.
  destruct (accumulate_cases acc data) as [[H ->]|[H ->]]; cbn [fst].
  - by rewrite totalSamples_concat.
  - apply BUFFER_SIZE_pos.
Qed.

(** X21: whatever has been buffered and whatever arrives, a push either
    keeps every chunk and emits nothing, or empties the accumulator and
    emits a frame of exactly [BUFFER_SIZE] samples, the first ones in
    arrival order; either way fewer than [BUFFER_SIZE] samples stay
    buffered. *)
Theorem accumulate_frame (acc : list (list float)) (data : list float) :
  (totalSamples (accumulate acc data).1 < BUFFER_SIZE)%nat
  ∧ match (accumulate acc data).2 with
    | Some buffer =>
        (accumulate acc data).1 = []
        ∧ length buffer = BUFFER_SIZE
        ∧ buffer = take BUFFER_SIZE (concat (acc ++ [data]))
    | None =>
        (accumulate acc data).1 = acc ++ [data]
        ∧ (totalSamples (acc ++ [data]) < BUFFER_SIZE)%nat
    end.
Proof.
  split; [apply accumulate_bounded|].
  destruct (accumulate_cases acc data) as [[H ->]|[H ->]]; cbn [fst snd].
  - split; [done|]. by rewrite totalSamples_concat.
  - split; [done|]. split; [|done]. rewrite length_take. lia.
Qed.

(** X22: when fewer than [BUFFER_SIZE] samples were buffered, the samples
    a completed frame leaves out are the end of the chunk that completed
    it, fewer than that chunk holds; they are in no frame and are not
    kept for the next one. *)
Theorem accumulate_loss (acc : list (list float)) (data buffer : list float) :
  (totalSamples acc < BUFFER_SIZE)%nat →
  (accumulate acc data).2 = Some buffer →
  let kept := (BUFFER_SIZE - totalSamples acc)%nat in
  buffer = concat acc ++ take kept data
  ∧ (0 < kept ≤ length data)%nat
  ∧ concat (acc ++ [data]) = buffer ++ drop kept data
  ∧ (accumulate acc data).1 = [].
Proof.
  intros Hacc Hframe kept. unfold kept. rewrite totalSamples_concat in *.
  destruct (accumulate_cases acc data) as [[H Heq]|[H Heq]];
    rewrite Heq in Hframe |- *; cbn [fst snd] in *; [done|].
  injection Hframe as <-.
  rewrite concat_app in *. cbn [concat] in *. rewrite app_nil_r in *.
  rewrite length_app in H.
  rewrite take_app, take_ge by lia.
  split; [done|]. split; [lia|]. split; [|done].
  by rewrite <- app_assoc, take_drop.
Qed.

Lemma accumulate_loss_witness :
  (accumulate [] (replicate (BUFFER_SIZE + 8) 0.25%float)).1 = [].
Proof.
  assert (length (concat ([] ++ [replicate (BUFFER_SIZE + 8) 0.25%float]))
          = (BUFFER_SIZE + 8)%nat) as Hlen
    by (cbn [app concat]; by rewrite app_nil_r, length_replicate).
  apply (accumulate_loss [] (replicate (BUFFER_SIZE + 8) 0.25%float)
           (take BUFFER_SIZE (concat ([] ++ [replicate (BUFFER_SIZE + 8) 0.25%float])))).
  - exact BUFFER_SIZE_pos.
  - rewrite accumulate_emit; [reflexivity|]. rewrite Hlen. lia.
Defined.

Lemma push_all_snoc acc chunks data :
  push_all acc (chunks ++ [data])
  = (let '(acc', emitted) := push_all acc chunks in
     ((accumulate acc' data).1, emitted ++ [(accumulate acc' data).2])).
Proof.
  unfold push_all. rewrite foldl_app. cbn [foldl].
  destruct (foldl _ _ chunks) as [acc' emitted].
  by destruct (accumulate acc' data).
Qed.

(** X23: chunks of one size that divides [BUFFER_SIZE] (the 128 samples
    of a render quantum, 64 times) fill a frame exactly: the last push
    emits all the samples and none is left out. *)
Theorem push_all_exact_chunks (chunks : list (list float)) (size : nat) :
  Forall (λ c, length c = size) chunks → (0 < size)%nat →
  (length chunks * size)%nat = BUFFER_SIZE →
  push_all [] chunks
  = ([], replicate (length chunks - 1) None ++ [Some (concat chunks)]).
Proof.
  intros Hall Hsize Htot.
  pose proof BUFFER_SIZE_pos as HB.
  destruct chunks as [|c0 chunks0] using rev_ind; [cbn in Htot; lia|].
  clear IHchunks0.
  apply Forall_app in Hall as [Hinit Hlast].
  pose proof (concat_length_uniform _ _ Hinit) as Hinit_len.
  apply Forall_cons in Hlast as [Hlast _]. cbn beta in Hlast.
  rewrite length_app in Htot |- *. cbn [length] in Htot |- *.
  rewrite push_all_snoc. unfold push_all.
  rewrite push_all_below by (cbn [app]; nia).
  cbn [app]. rewrite accumulate_emit
    by (rewrite concat_app, length_app; cbn [concat]; rewrite app_nil_r; nia).
  cbn [fst snd]. rewrite take_ge
    by (rewrite concat_app, length_app; cbn [concat]; rewrite app_nil_r; nia).
  by replace (length chunks0 + 1 - 1)%nat with (length chunks0) by lia.
Qed.

Lemma push_all_exact_chunks_witness :
  push_all [] chunks_64
  = ([], replicate (length chunks_64 - 1) None ++ [Some (concat chunks_64)]).
Proof.
  apply (push_all_exact_chunks chunks_64 128).
  - apply Forall_replicate. apply length_replicate.
  - lia.
  - reflexivity.
Defined.

(** ** More on the handler *)

Section HandlerFacts.
Variable RMS : list float → float.
Variable hpcpExtractor : list float → JS.array float.
Variable toFixed2 : float → string.

Abbreviation run' := (run RMS hpcpExtractor toFixed2).
Abbreviation onmessage' := (onmessage RMS hpcpExtractor toFixed2).
Abbreviation process' := (process RMS hpcpExtractor toFixed2).

Lemma run_snoc st msgs data now :
  run' st (msgs ++ [(data, now)]) = (onmessage' (run' st msgs) data now).1.
Proof. unfold run. by rewrite foldl_app. Qed.

Lemma run_cons st msgs data now :
  run' st ((data, now) :: msgs) = run' (onmessage' st data now).1 msgs.
Proof. done. Qed.

Lemma set_sampleAccumulator_same st :
  set_sampleAccumulator (sampleAccumulator st) st = st.
Proof. by destruct st. Qed.

Lemma set_sampleAccumulator_twice acc acc' st :
  set_sampleAccumulator acc (set_sampleAccumulator acc' st) = set_sampleAccumulator acc st.
Proof. done. Qed.

Lemma onmessage_buffering st data now :
  (length (concat (sampleAccumulator st ++ [data])) < BUFFER_SIZE)%nat →
  onmessage' st data now
  = (set_sampleAccumulator (sampleAccumulator st ++ [data]) st, Returned).
Proof. intros H. unfold onmessage. by rewrite accumulate_below. Qed.

Lemma onmessage_frame st data now :
  (BUFFER_SIZE ≤ length (concat (sampleAccumulator st ++ [data])))%nat →
  onmessage' st data now
  = process' (set_sampleAccumulator [] st)
             (take BUFFER_SIZE (concat (sampleAccumulator st ++ [data]))) now.
Proof. intros H. unfold onmessage. by rewrite accumulate_emit. Qed.

Lemma run_buffering msgs : ∀ st,
  (length (concat (sampleAccumulator st ++ msgs.*1)) < BUFFER_SIZE)%nat →
  run' st msgs = set_sampleAccumulator (sampleAccumulator st ++ msgs.*1) st.
Proof.
  induction msgs as [|[data now] msgs IH]; intros st Hlt.
  - cbn. by rewrite app_nil_r, set_sampleAccumulator_same.
  - rewrite run_cons, fmap_cons. cbn [fst].
    rewrite onmessage_buffering.
    + cbn [fst]. rewrite IH.
      * cbn [sampleAccumulator set_sampleAccumulator]. by rewrite <- app_assoc.
      * cbn [sampleAccumulator set_sampleAccumulator]. by rewrite <- app_assoc.
    + revert Hlt. rewrite fmap_cons, !concat_app, !length_app. cbn [fst concat].
      rewrite !length_app. cbn [length]. lia.
Qed.

Lemma onmessage_without_extractor st data now :
  essentiaExtractor st = false →
  onmessage' st data now
  = (set_sampleAccumulator (accumulate (sampleAccumulator st) data).1 st,
     match (accumulate (sampleAccumulator st) data).2 with
     | Some _ => Thrown
     | None => Returned
     end).
Proof.
  intros Hex. unfold onmessage, process.
  destruct (accumulate (sampleAccumulator st) data) as [acc [buffer|]]; cbn [fst snd];
    [|done].
  cbn [essentiaExtractor set_sampleAccumulator]. by rewrite Hex.
Qed.

Lemma run_without_extractor_state msgs : ∀ st,
  essentiaExtractor st = false →
  run' st msgs
  = set_sampleAccumulator (push_all (sampleAccumulator st) msgs.*1).1 st.
Proof.
  induction msgs as [|[data now] msgs IH] using rev_ind; intros st Hex.
  - cbn. by rewrite set_sampleAccumulator_same.
  - rewrite run_snoc, fmap_app. change ([(data, now)].*1) with [data].
    rewrite push_all_snoc, IH by done.
    destruct (push_all (sampleAccumulator st) msgs.*1) as [acc' emitted].
    rewrite onmessage_without_extractor by exact Hex.
    change (sampleAccumulator (set_sampleAccumulator (acc', emitted).1 st)) with acc'.
    generalize (accumulate acc' data). intros p. cbn [fst].
    apply set_sampleAccumulator_twice.
Qed.

End HandlerFacts.

(** X24: after a run of the handler the accumulator holds fewer than
    [BUFFER_SIZE] samples, whatever the state before, the messages and
    the fate of the frames. *)
Theorem run_accumulator_bounded
    (RMS : list float → float) (hpcpExtractor : list float → JS.array float)
    (toFixed2 : float → string) (st : state) (msgs : list (list float * float)) :
  msgs ≠ [] →
  (totalSamples (sampleAccumulator (run RMS hpcpExtractor toFixed2 st msgs))
   < BUFFER_SIZE)%nat.
Proof.
  intros Hne. destruct msgs as [|[data now] msgs _] using rev_ind; [done|].
  rewrite run_snoc, onmessage_sampleAccumulator. apply accumulate_bounded.
Qed.

Lemma run_accumulator_bounded_witness :
  (totalSamples
     (sampleAccumulator
        (run (constant_RMS 0.5) (constant_hpcp (unit_vector 3)) plain_toFixed2
             (initial_state 0) [([1%float], 0%float)]))
   < BUFFER_SIZE)%nat.
Proof.
  apply (run_accumulator_bounded (constant_RMS 0.5) (constant_hpcp (unit_vector 3))
           plain_toFixed2 (initial_state 0) [([1%float], 0%float)]).
  discriminate.
Defined.

(** X25: while the extractor variable is [null] (before the module has
    loaded, after a stop), the handler only buffers: a run changes nothing
    but the sample accumulator, and a message that completes a frame
    throws after the accumulator has been emptied, so the frame is lost. *)
Theorem run_without_extractor
    (RMS : list float → float) (hpcpExtractor : list float → JS.array float)
    (toFixed2 : float → string) (st : state) (msgs : list (list float * float))
    (data : list float) (now : float) :
  essentiaExtractor st = false →
  run RMS hpcpExtractor toFixed2 st msgs
  = set_sampleAccumulator (push_all (sampleAccumulator st) msgs.*1).1 st
  ∧ onmessage RMS hpcpExtractor toFixed2 st data now
    = (set_sampleAccumulator (accumulate (sampleAccumulator st) data).1 st,
       match (accumulate (sampleAccumulator st) data).2 with
     | Some _ => Thrown
     | None => Returned
     end)
  ∧ ((BUFFER_SIZE ≤ totalSamples (sampleAccumulator st ++ [data]))%nat →
     onmessage RMS hpcpExtractor toFixed2 st data now
     = (set_sampleAccumulator [] st, Thrown)).
Proof.
  intros Hex.
  split; [by apply run_without_extractor_state|].
  split; [by apply onmessage_without_extractor|].
  intros Hle. rewrite totalSamples_concat in Hle.
  rewrite onmessage_without_extractor by done.
  by rewrite accumulate_emit.
Qed.

Lemma run_without_extractor_witness :
  run (constant_RMS 0.5) (constant_hpcp (unit_vector 3)) plain_toFixed2
      (initial_state 0) [([1%float], 0%float)]
  = set_sampleAccumulator
      (push_all (sampleAccumulator (initial_state 0)) [([1%float], 0%float)].*1).1
      (initial_state 0).
Proof.
  refine (proj1 (run_without_extractor (constant_RMS 0.5) (constant_hpcp (unit_vector 3))
                   plain_toFixed2 (initial_state 0) [([1%float], 0%float)]
                   [1%float] 0%float _)).
  reflexivity.
Defined.

(** X26: messages that arrive after [stopAudioWorkletStream] change
    neither the stored result nor the displayed text nor the smoothing
    accumulation, and stopping again gives the state of the first stop
    but for the samples buffered since. *)
Theorem run_after_stop
    (RMS : list float → float) (hpcpExtractor : list float → JS.array float)
    (toFixed2 : float → string) (st : state) (msgs : list (list float * float)) :
  let st' := run RMS hpcpExtractor toFixed2 (stopAudioWorkletStream st) msgs in
  st' = set_sampleAccumulator (push_all [] msgs.*1).1 (stopAudioWorkletStream st)
  ∧ result st' = result st
  ∧ chord_display st' = chord_display (stopAudioWorkletStream st)
  ∧ hpcpAccumulation st' = []
  ∧ stopAudioWorkletStream st' = stopAudioWorkletStream st.
Proof.
  intros st'. unfold st'.
  rewrite run_without_extractor_state by done.
  cbn [sampleAccumulator stopAudioWorkletStream]. done.
Qed.

(** X27: the messages that arrive before the first frame is complete are
    only buffered, and the clock values of their runs play no part: the
    run ends in the state in which the frame, the first [BUFFER_SIZE]
    samples in arrival order, has been processed at the time of the last
    message. *)
Theorem run_first_frame
    (RMS : list float → float) (hpcpExtractor : list float → JS.array float)
    (toFixed2 : float → string) (st : state) (msgs : list (list float * float))
    (data : list float) (now : float) :
  sampleAccumulator st = [] →
  (length (concat msgs.*1) < BUFFER_SIZE)%nat →
  (BUFFER_SIZE ≤ length (concat msgs.*1) + length data)%nat →
  run RMS hpcpExtractor toFixed2 st (msgs ++ [(data, now)])
  = (process RMS hpcpExtractor toFixed2 st
       (take BUFFER_SIZE (concat (msgs.*1 ++ [data]))) now).1.
Proof.
  intros Hst Hlt Hle.
  rewrite run_snoc, run_buffering by (by rewrite Hst).
  rewrite Hst.
  change (@nil (list float) ++ msgs.*1) with msgs.*1.
  rewrite onmessage_frame.
  - rewrite set_sampleAccumulator_twice.
    change (sampleAccumulator (set_sampleAccumulator msgs.*1 st)) with msgs.*1.
    replace (set_sampleAccumulator [] st) with st; [done|].
    rewrite <- Hst. symmetry. apply set_sampleAccumulator_same.
  - change (sampleAccumulator (set_sampleAccumulator msgs.*1 st)) with msgs.*1.
    rewrite concat_app, length_app. cbn [concat]. rewrite app_nil_r. lia.
Qed.

Lemma run_first_frame_witness :
  run (constant_RMS 0.5) (constant_hpcp (unit_vector 3)) plain_toFixed2
      (extractor_loaded (initial_state 0))
      ([([0.25%float], 0%float)] ++ [(replicate BUFFER_SIZE 0.25%float, 300%float)])
  = (process (constant_RMS 0.5) (constant_hpcp (unit_vector 3)) plain_toFixed2
       (extractor_loaded (initial_state 0))
       (take BUFFER_SIZE
          (concat ([([0.25%float], 0%float)].*1 ++ [replicate BUFFER_SIZE 0.25%float])))
       300%float).1.
Proof.
  pose proof BUFFER_SIZE_eq as HB.
  apply (run_first_frame (constant_RMS 0.5) (constant_hpcp (unit_vector 3))
           plain_toFixed2 (extractor_loaded (initial_state 0)) [([0.25%float], 0%float)]
           (replicate BUFFER_SIZE 0.25%float) 300%float).
  - reflexivity.
  - cbn [fmap list_fmap fst concat length app]. lia.
  - rewrite length_replicate. lia.
Defined.

(** ** More on the smoothing window *)

Lemma sum_loop_nan (vs : list (JS.array float)) i :
  foldl (λ sum v, sum + JS.ToNumber (JS.get v i))%float nan vs = nan.
Proof.
  induction vs as [|v vs IH]; cbn [foldl]; [done|].
  by rewrite float_add_nan_l.
Qed.

Lemma sum_loop_taint (vs : list (JS.array float)) v i : ∀ init,
  v ∈ vs → is_nan (strength v i) = true →
  foldl (λ sum v, sum + JS.ToNumber (JS.get v i))%float init vs = nan.
Proof.
  induction vs as [|w vs IH]; intros init Hv Hnan; [by apply elem_of_nil in Hv|].
  cbn [foldl]. apply elem_of_cons in Hv as [<-|Hv].
  - apply float_is_nan_eq in Hnan. unfold strength in Hnan.
    rewrite Hnan, float_add_nan_r. apply sum_loop_nan.
  - by apply IH.
Qed.

Lemma averageHPCP_strength (vs : list (JS.array float)) i :
  (i < 12)%nat → strength (averageHPCP vs) i = mean_at vs i.
Proof.
  intros Hi. rewrite averageHPCP_mean. unfold strength, mean_vector.
  by rewrite get_dense, list_lookup_fmap, lookup_seq_lt.
Qed.

Lemma averageHPCP_length (vs : list (JS.array float)) : length (averageHPCP vs) = 12%nat.
Proof. by rewrite averageHPCP_mean. Qed.

Lemma averageHPCP_taint (vs : list (JS.array float)) v i :
  v ∈ vs → (i < 12)%nat → is_nan (strength v i) = true →
  strength (averageHPCP vs) i = nan.
Proof.
  intros Hv Hi Hnan. rewrite averageHPCP_strength by done. unfold mean_at.
  rewrite (sum_loop_taint vs v i) by done. apply float_div_nan_l.
Qed.

(** X28: the mean has 12 defined entries whatever the accumulated vectors
    are, and one vector with a [NaN] or missing entry at a pitch class
    makes the mean [NaN] there. *)
Theorem averageHPCP_nan_entry (vs : list (JS.array float)) (v : JS.array float) (i : nat) :
  v ∈ vs → (i < 12)%nat → is_nan (strength v i) = true →
  length (averageHPCP vs) = 12%nat
  ∧ averageHPCP vs !! i = Some (Some nan).
Proof.
  intros Hv Hi Hnan. split; [apply averageHPCP_length|].
  pose proof (averageHPCP_taint vs v i Hv Hi Hnan) as Hs.
  rewrite averageHPCP_mean in Hs |- *. unfold strength in Hs. rewrite get_dense in Hs.
  unfold JS.dense. rewrite list_lookup_fmap.
  destruct (mean_vector vs !! i) as [x|] eqn:Hx; cbn in Hs |- *; [by rewrite Hs|].
  apply lookup_ge_None_1 in Hx. unfold mean_vector in Hx.
  rewrite length_fmap, length_seq in Hx. lia.
Qed.

Lemma averageHPCP_nan_entry_witness :
  averageHPCP [[]; template_C_maj] !! 0%nat = Some (Some nan).
Proof.
  refine (proj2 (averageHPCP_nan_entry [[]; template_C_maj] [] 0 _ _ _));
    [apply list_elem_of_here | lia | reflexivity].
Defined.

Section SmoothingFacts.
Variable toFixed2 : float → string.

Lemma smooth_flush st now :
  (SMOOTHING_INTERVAL <=? now - lastSmoothingTime st)%float = true →
  lastChordResult (smooth toFixed2 st now)
  = detectChord (averageHPCP (hpcpAccumulation st)) chordTemplates
  ∧ lastNotesResult (smooth toFixed2 st now)
    = topNotes toFixed2 (detectNotes (averageHPCP (hpcpAccumulation st)) 0.1)
  ∧ chord_display (smooth toFixed2 st now)
    = "Detected Chord: "
        +:+ JS.string_of_null (detectChord (averageHPCP (hpcpAccumulation st)) chordTemplates)
        +:+ "<br>Notes: "
        +:+ topNotes toFixed2 (detectNotes (averageHPCP (hpcpAccumulation st)) 0.1).
Proof. intros Hflush. unfold smooth. rewrite Hflush. done. Qed.

End SmoothingFacts.

(** X29: when the window is flushed and one accumulated vector has a
    [NaN] or missing entry among its first 12, no chord is detected: the
    stored chord is [null] and the text shown reads
    ["Detected Chord: null"]. *)
Theorem smooth_nan_window
    (toFixed2 : float → string) (st : state) (now : float)
    (v : JS.array float) (i : nat) :
  (SMOOTHING_INTERVAL <=? now - lastSmoothingTime st)%float = true →
  v ∈ hpcpAccumulation st → (i < 12)%nat → is_nan (strength v i) = true →
  lastChordResult (smooth toFixed2 st now) = JS.null
  ∧ chord_display (smooth toFixed2 st now)
    = "Detected Chord: null<br>Notes: " +:+ lastNotesResult (smooth toFixed2 st now).
Proof.
  intros Hflush Hv Hi Hnan.
  destruct (smooth_flush toFixed2 st now Hflush) as (Hchord & Hnotes & Hdisplay).
  assert (detectChord (averageHPCP (hpcpAccumulation st)) chordTemplates = JS.null)
    as Hnull.
  { unfold detectChord. rewrite (detect_loop_nan_entry _ _ _ i); [done| |].
    - by rewrite averageHPCP_length.
    - rewrite (averageHPCP_taint _ v i) by done. reflexivity. }
  rewrite Hchord, Hdisplay, Hnotes, Hnull. done.
Qed.

Lemma smooth_nan_window_witness :
  lastChordResult (smooth plain_toFixed2 state_with_empty_vector 300) = JS.null.
Proof.
  refine (proj1 (smooth_nan_window plain_toFixed2 state_with_empty_vector 300 [] 0 _ _ _ _));
    [reflexivity | apply list_elem_of_here | lia | reflexivity].
Defined.
